(** * Narrative Nexus: the story graph and the traversal session of [app.py]

    A shallow embedding of [EnhancedStoryAgent] (graph model, import and
    export), of the session handlers of the Streamlit page (start, choice
    buttons, undo) and of the achievement extraction, followed by the
    properties of the specification that concern them.

    Modelling decisions.
    - Python values are dynamically typed: a definition handed to
      [load_tree] is a [Dict[str, Any]], and nothing is checked or coerced
      on the way in.  Node fields and session entries are therefore
      [value]s.  Floats are left out.
    - A Python [dict] keeps insertion order, and the page relies on it
      (order of the choice buttons, [next(iter(...))] for the fallback
      root), so a dict is an association list whose keys are pairwise
      different; [d[k] = v] overwrites in place or appends.
    - A [str] is kept as its UTF-8 bytes.  Substring search on valid UTF-8
      agrees with search on code points; [strip] knows the encodings of the
      white-space code points.
    - A statement that raises leaves behind every mutation made before it:
      handlers are computations [State -> result A * State].
    - Values are compared by content.  [export_tree] shares the field
      objects of the nodes with the exported definition; the properties
      below never mutate a graph after exporting it, so sharing is not
      observable in them.  No two nodes share a [choices] object: the
      page builds graphs from the literal tree, from [json.loads] and from
      [add_node(..., choices={})] only. *)

From Stdlib Require Import ZArith List String Ascii Bool Lia DecimalString.
Import ListNotations.

Set Implicit Arguments.

Open Scope string_scope.
Open Scope list_scope.

(** ** Python values *)

Module Py.

(** Hashable values that occur as dict keys. *)
Inductive key : Type :=
| KNone
| KBool (b : bool)
| KInt (z : Z)
| KStr (s : string).

(** JSON-shaped values: what [json.loads] produces and what the literal
    story tree contains. *)
#[warnings="-register-all"]
Inductive value : Type :=
| VNone
| VBool (b : bool)
| VInt (z : Z)
| VStr (s : string)
| VList (l : list value)
| VDict (d : list (key * value)).

(** The exceptions the modelled code can raise. *)
Inductive exn : Type :=
| AttributeError
| KeyError (k : value)
| TypeError
| ValueError
| IndexError.

Inductive result (A : Type) : Type :=
| Ok (a : A)
| Raise (e : exn).

Arguments Ok {A} a.
Arguments Raise {A} e.

(** [bool] is a subtype of [int]: [True == 1] and [hash(True) == hash(1)]. *)
Definition int_of_bool (b : bool) : Z := if b then 1%Z else 0%Z.

(** [k1 == k2] on keys. *)
Definition key_eqb (k1 k2 : key) : bool :=
  match k1, k2 with
  | KNone, KNone => true
  | KBool a, KBool b => Bool.eqb a b
  | KBool a, KInt z | KInt z, KBool a => Z.eqb (int_of_bool a) z
  | KInt a, KInt b => Z.eqb a b
  | KStr a, KStr b => String.eqb a b
  | _, _ => false
  end.

(** [str(k)]. *)
Definition str (k : key) : string :=
  match k with
  | KNone => "None"
  | KBool true => "True"
  | KBool false => "False"
  | KInt z => NilZero.string_of_int (Z.to_int z)
  | KStr s => s
  end.

(** [bool(v)], the truth value used by [if v:] and [v or w]. *)
Definition truthy (v : value) : bool :=
  match v with
  | VNone => false
  | VBool b => b
  | VInt z => negb (Z.eqb z 0)
  | VStr s => negb (String.eqb s "")
  | VList l => match l with [] => false | _ => true end
  | VDict d => match d with [] => false | _ => true end
  end.

(** *** Insertion-ordered dictionaries *)

Section Dict.
Variables K V : Type.
Variable eqb : K -> K -> bool.

Definition dict := list (K * V).

Definition keys (d : dict) : list K := map fst d.

(** [d.get(k)] *)
Fixpoint dict_get (d : dict) (k : K) : option V :=
  match d with
  | [] => None
  | (k', v) :: d' => if eqb k' k then Some v else dict_get d' k
  end.

(** [k in d] *)
Definition dict_mem (d : dict) (k : K) : bool :=
  match dict_get d k with Some _ => true | None => false end.

(** [d[k] = v]: an entry with an equal key keeps its key and its place
    and takes the new value; otherwise the entry is added at the end. *)
Fixpoint dict_set (d : dict) (k : K) (v : V) : dict :=
  match d with
  | [] => [(k, v)]
  | (k', v') :: d' =>
      if eqb k' k then (k', v) :: d' else (k', v') :: dict_set d' k v
  end.

(** [next(iter(d))] when [d] is not empty. *)
Definition first_key (d : dict) : option K :=
  match d with
  | [] => None
  | (k, _) :: _ => Some k
  end.
End Dict.

(** [node.get(name, default)]: only a dict has a [get] method. *)
Definition get (node : value) (name : string) (default : value) : result value :=
  match node with
  | VDict d =>
      match dict_get key_eqb d (KStr name) with
      | Some v => Ok v
      | None => Ok default
      end
  | _ => Raise AttributeError
  end.

(** [o[name] = v] on an arbitrary value.  A list wants an integer index,
    the other non-dict values support no item assignment at all. *)
Definition setitem (o : value) (name : string) (v : value) : result value :=
  match o with
  | VDict d => Ok (VDict (dict_set key_eqb d (KStr name) v))
  | _ => Raise TypeError
  end.

(** [o.items()] *)
Definition items (o : value) : result (list (key * value)) :=
  match o with
  | VDict d => Ok d
  | _ => Raise AttributeError
  end.

(** [l[-1]] *)
Definition last_item (A : Type) (l : list A) : result A :=
  match rev l with
  | [] => Raise IndexError
  | x :: _ => Ok x
  end.

(** [l[i]] for an index that is not negative. *)
Definition item (A : Type) (l : list A) (i : nat) : result A :=
  match nth_error l i with
  | Some x => Ok x
  | None => Raise IndexError
  end.

(** *** Strings *)

(** [s[n:]] *)
Fixpoint drop (n : nat) (s : string) : string :=
  match n, s with
  | S n', String _ s' => drop n' s'
  | _, _ => s
  end.

(** [sub in s] *)
Fixpoint contains (sub s : string) : bool :=
  if prefix sub s then true
  else match s with
       | EmptyString => false
       | String _ s' => contains sub s'
       end.

(** The text before and after the leftmost occurrence of [sep] in [s], as
    [s.partition(sep)] finds it. *)
Fixpoint find (sep s : string) : option (string * string) :=
  if prefix sep s then Some (EmptyString, drop (String.length sep) s)
  else match s with
       | EmptyString => None
       | String c s' =>
           match find sep s' with
           | Some (a, b) => Some (String c a, b)
           | None => None
           end
       end.

(** [s.split(sep)] cuts at the occurrences of [sep] from left to right,
    each search starting behind the previous occurrence.  Every cut
    shortens the rest, so [fuel] at least the length of [s] is enough. *)
Fixpoint split_from (fuel : nat) (sep s : string) : list string :=
  match find sep s with
  | None => [s]
  | Some (a, b) =>
      match fuel with
      | O => [a]
      | S fuel' => a :: split_from fuel' sep b
      end
  end.

Definition split (sep s : string) : result (list string) :=
  if String.eqb sep "" then Raise ValueError
  else Ok (split_from (String.length s) sep s).

Definition bytes (l : list nat) : string :=
  fold_right (fun n s => String (ascii_of_nat n) s) EmptyString l.

(** The code points for which [str.isspace] holds, in UTF-8: U+0009 to
    U+000D, U+001C to U+0020, U+0085, U+00A0, U+1680, U+2000 to U+200A,
    U+2028, U+2029, U+202F, U+205F and U+3000. *)
Definition whitespace : list string :=
  map bytes
    [ [9]; [10]; [11]; [12]; [13]; [28]; [29]; [30]; [31]; [32];
      [194; 133]; [194; 160]; [225; 154; 128];
      [226; 128; 128]; [226; 128; 129]; [226; 128; 130]; [226; 128; 131];
      [226; 128; 132]; [226; 128; 133]; [226; 128; 134]; [226; 128; 135];
      [226; 128; 136]; [226; 128; 137]; [226; 128; 138];
      [226; 128; 168]; [226; 128; 169]; [226; 128; 175];
      [226; 129; 159]; [227; 128; 128] ].

(** The rest of [s] behind a leading member of [ws], if there is one. *)
Fixpoint behind_one (ws : list string) (s : string) : option string :=
  match ws with
  | [] => None
  | w :: ws' =>
      if prefix w s then Some (drop (String.length w) s) else behind_one ws' s
  end.

Fixpoint lstrip_from (fuel : nat) (ws : list string) (s : string) : string :=
  match fuel with
  | O => s
  | S fuel' =>
      match behind_one ws s with
      | Some s' => lstrip_from fuel' ws s'
      | None => s
      end
  end.

Fixpoint srev (s : string) : string :=
  match s with
  | EmptyString => EmptyString
  | String c s' => srev s' ++ String c EmptyString
  end.

Definition lstrip (s : string) : string :=
  lstrip_from (String.length s) whitespace s.

Definition rstrip (s : string) : string :=
  srev (lstrip_from (String.length s) (map srev whitespace) (srev s)).

(** [s.strip()] *)
Definition strip (s : string) : string := rstrip (lstrip s).

End Py.

Import Py.

(** ** Computations that mutate a state and may raise *)

Definition M (S A : Type) : Type := S -> result A * S.

Definition ret {S A} (a : A) : M S A := fun s => (Ok a, s).

Definition bind {S A B} (m : M S A) (f : A -> M S B) : M S B :=
  fun s =>
    match m s with
    | (Ok a, s') => f a s'
    | (Raise e, s') => (Raise e, s')
    end.

(** A pure, possibly raising, expression evaluated inside a handler. *)
Definition lift {S A} (r : result A) : M S A := fun s => (r, s).

Definition read {S} : M S S := fun s => (Ok s, s).

Definition modify {S} (f : S -> S) : M S unit := fun s => (Ok tt, f s).

Declare Scope py_scope.
Delimit Scope py_scope with py.

Notation "x <- m ;; k" := (bind m (fun x => k))
  (at level 100, m at next level, right associativity) : py_scope.
Notation "m ;; k" := (bind m (fun _ => k))
  (at level 100, right associativity) : py_scope.

(** [for x in l: body] *)
Fixpoint for_each {S A} (l : list A) (body : A -> M S unit) : M S unit :=
  match l with
  | [] => ret tt
  | x :: l' => (body x ;; for_each l' body)%py
  end.

(** [bind] for expressions without state. *)
Definition rbind {A B} (r : result A) (f : A -> result B) : result B :=
  match r with
  | Ok a => f a
  | Raise e => Raise e
  end.

(** ** The story graph (lines 13-72) *)

Record StoryNode : Type := mkStoryNode {
  id : string;
  text : value;
  choices : value;
  metadata : value;
  image_prompt : value;
  mood : value
}.

Record EnhancedStoryAgent : Type := mkAgent {
  story_nodes : dict string StoryNode;
  root_id : option string
}.

Definition set_story_nodes (d : dict string StoryNode) (a : EnhancedStoryAgent) :=
  {| story_nodes := d; root_id := root_id a |}.

Definition set_root_id (r : option string) (a : EnhancedStoryAgent) :=
  {| story_nodes := story_nodes a; root_id := r |}.

(** Lines 33-40: the node built from one entry of the definition.  The
    arguments are evaluated left to right. *)
Definition node_of_entry (nid : key) (node : value) : result StoryNode :=
  rbind (get node "text" (VStr "")) (fun t =>
  rbind (get node "choices" (VDict [])) (fun c =>
  rbind (get node "metadata" (VDict [])) (fun m =>
  rbind (get node "image_prompt" (VStr "")) (fun i =>
  rbind (get node "mood" (VStr "neutral")) (fun md =>
  Ok (mkStoryNode (str nid) t c m i md)))))).

(** Line 42. *)
Definition root_of (tree : dict key value) (nodes : dict string StoryNode)
  : option string :=
  if dict_mem key_eqb tree (KStr "start") then Some "start"
  else match nodes with
       | [] => None
       | _ => first_key nodes
       end.

(** Lines 33-41: the body of the loop. *)
Definition load_entry (e : key * value) : M EnhancedStoryAgent unit :=
  let '(nid, node) := e in
  (node_obj <- lift (node_of_entry nid node) ;;
   modify (fun a =>
     set_story_nodes (dict_set String.eqb (story_nodes a) (str nid) node_obj) a))%py.

(** Lines 30-42. *)
Definition load_tree (tree : dict key value) : M EnhancedStoryAgent unit :=
  (modify (set_story_nodes []) ;;
   for_each tree load_entry ;;
   modify (fun a => set_root_id (root_of tree (story_nodes a)) a))%py.

(** Lines 23-28: the constructor.  [if story_tree:] skips an empty or
    absent definition; when [load_tree] raises no agent is returned. *)
Definition new_agent (story_tree : option (dict key value))
  : result EnhancedStoryAgent :=
  let a0 := {| story_nodes := []; root_id := None |} in
  match story_tree with
  | Some (e :: t) =>
      match load_tree (e :: t) a0 with
      | (Ok _, a) => Ok a
      | (Raise x, _) => Raise x
      end
  | _ => Ok a0
  end.

(** Lines 44-45: [self.story_nodes[node_id]].  Every key of [story_nodes]
    is a [str]; a list or a dict is not hashable. *)
Definition get_node (a : EnhancedStoryAgent) (node_id : value) : result StoryNode :=
  match node_id with
  | VStr s =>
      match dict_get String.eqb (story_nodes a) s with
      | Some n => Ok n
      | None => Raise (KeyError node_id)
      end
  | VList _ | VDict _ => Raise TypeError
  | _ => Raise (KeyError node_id)
  end.

(** Lines 52-57, with the identifier drawn by [uuid.uuid4()] as an argument.
    [choices or {}] replaces any falsy argument by a new empty dict, and an
    absent argument is [None]. *)
Definition add_node (nid : string) (t : value) (c : value) (ip : value) (md : value)
  : M EnhancedStoryAgent string :=
  (modify (fun a =>
     set_story_nodes
       (dict_set String.eqb (story_nodes a) nid
          (mkStoryNode nid t (if truthy c then c else VDict []) (VDict []) ip md)) a) ;;
   ret nid)%py.

Definition set_choices (c : value) (n : StoryNode) : StoryNode :=
  mkStoryNode (id n) (text n) c (metadata n) (image_prompt n) (mood n).

(** Lines 59-60: [self.story_nodes[from_id].choices[choice_text] = to_id].
    The node object is mutated in place, so it keeps its place in
    [story_nodes]. *)
Definition link_choice (from_id : string) (choice_text : string) (to_id : value)
  : M EnhancedStoryAgent unit :=
  (a <- read ;;
   n <- lift (get_node a (VStr from_id)) ;;
   c <- lift (setitem (choices n) choice_text to_id) ;;
   modify (set_story_nodes
             (dict_set String.eqb (story_nodes a) from_id (set_choices c n))))%py.

(** Lines 62-72. *)
Definition export_entry (node : StoryNode) : value :=
  VDict [ (KStr "text", text node);
          (KStr "choices", choices node);
          (KStr "metadata", metadata node);
          (KStr "image_prompt", image_prompt node);
          (KStr "mood", mood node) ].

Definition export_tree (a : EnhancedStoryAgent) : dict key value :=
  fold_left
    (fun out '(nid, node) => dict_set key_eqb out (KStr nid) (export_entry node))
    (story_nodes a) [].

(** ** Achievement extraction (lines 490-491) *)

Definition marker : string := "Achievement Unlocked:".

Definition trophy : string := "🏆".

(** [None] when the test of line 490 fails, otherwise the name computed by
    line 491. *)
Definition detect_achievement (t : string) : result (option string) :=
  if contains marker t then
    rbind (split marker t) (fun parts =>
    rbind (item parts 1) (fun after =>
    rbind (split trophy after) (fun parts' =>
    rbind (item parts' 0) (fun name =>
    Ok (Some (strip name))))))
  else Ok None.

(** ** The traversal session (lines 336-371 and 464-538)

    [st.session_state] holds the session between two runs of the page.
    [start_time] only feeds the elapsed-time display and is left out. *)

Record session : Type := mkSession {
  progress : list value;
  current_node : value;
  story_text : list value;
  achievements : list string;
  choices_made : Z
}.

(** [agent.root_id] as a value: [None] or a [str]. *)
Definition value_of_root (r : option string) : value :=
  match r with
  | Some s => VStr s
  | None => VNone
  end.

(** Lines 339-344: the session of the first run of the page, for an agent
    already built; the restart button (lines 352-356) and a successful
    import (lines 435-438) set the same values.  When [get_node] raises on
    the first run the page stops before [story_text] exists, so no session
    is started. *)
Definition start (a : EnhancedStoryAgent) : result session :=
  rbind (get_node a (value_of_root (root_id a))) (fun n =>
  Ok {| progress := [value_of_root (root_id a)];
        current_node := value_of_root (root_id a);
        story_text := [text n];
        achievements := [];
        choices_made := 0 |}).

Definition append_progress (v : value) (s : session) : session :=
  mkSession (progress s ++ [v]) (current_node s) (story_text s)
            (achievements s) (choices_made s).

Definition set_progress (p : list value) (s : session) : session :=
  mkSession p (current_node s) (story_text s) (achievements s) (choices_made s).

Definition set_current_node (v : value) (s : session) : session :=
  mkSession (progress s) v (story_text s) (achievements s) (choices_made s).

Definition set_story_text (t : list value) (s : session) : session :=
  mkSession (progress s) (current_node s) t (achievements s) (choices_made s).

Definition add_choices_made (d : Z) (s : session) : session :=
  mkSession (progress s) (current_node s) (story_text s) (achievements s)
            (choices_made s + d).

(** What the page tells the user: [st.info] or [st.warning].  Neither is an
    exception. *)
Inductive notice : Type :=
| Info (msg : string)
| Warning (msg : string).

(** The two messages of the undo button (lines 368 and 371). *)
Definition undid_last_choice : string := "↩️ Undid last choice.".

Definition nothing_to_undo : string :=
  "📝 Nothing to undo — you're at the beginning.".

(** Lines 363-371: the body of the undo button.  [pop] is only reached on a
    list of two or more entries. *)
Definition undo : M session notice :=
  (s <- read ;;
   if (1 <? List.length (progress s))%nat then
     modify (fun s => set_progress (removelast (progress s)) s) ;;
     s1 <- read ;;
     cur <- lift (last_item (progress s1)) ;;
     modify (set_current_node cur) ;;
     modify (fun s => set_story_text (removelast (story_text s)) s) ;;
     modify (add_choices_made (-1)) ;;
     ret (Info undid_last_choice)
   else
     ret (Warning nothing_to_undo))%py.

(** A value that can be hashed, as a dict lookup needs it: a list or a
    dict cannot. *)
Definition hashable (v : value) : bool :=
  match v with
  | VList _ | VDict _ => false
  | _ => true
  end.

(** Lines 467-480. *)
Definition mood_colors : dict string string :=
  [ ("mysterious", "#6A0DAD"); ("magical", "#FF6B6B"); ("hopeful", "#4ECDC4");
    ("wise", "#FFD166"); ("discovery", "#06D6A0"); ("epic", "#118AB2");
    ("peaceful", "#83C5BE"); ("visionary", "#9D4EDD"); ("fulfilling", "#F72585");
    ("content", "#43AA8B"); ("triumphant", "#F48C06"); ("wonderous", "#7209B7") ].

(** Line 482: [mood_colors.get(current_node.mood, "#4CAF50")].  Every key
    of the table is a [str]; a mood that cannot be hashed raises. *)
Definition border_color (m : value) : result string :=
  match m with
  | VStr s =>
      match dict_get String.eqb mood_colors s with
      | Some c => Ok c
      | None => Ok "#4CAF50"
      end
  | VList _ | VDict _ => Raise TypeError
  | _ => Ok "#4CAF50"
  end.

(** Lines 490-491 on the text of a node, whatever value it is.  [in] is
    the substring test on a [str], membership in a list, key membership in
    a dict, and raises on the other values; [split] exists on a [str]
    only. *)
Definition achievement_of (t : value) : result (option string) :=
  match t with
  | VStr s => detect_achievement s
  | VList l =>
      if existsb (fun v => match v with
                           | VStr x => String.eqb x marker
                           | _ => false
                           end) l
      then Raise AttributeError else Ok None
  | VDict d =>
      if dict_mem key_eqb d (KStr marker) then Raise AttributeError else Ok None
  | _ => Raise TypeError
  end.

(** Lines 464-518: what the page runs for the current node before it
    draws the choice buttons, and the choices it then offers, in the order
    of the buttons.  The node is looked up (464), its mood is hashed
    (482); an ending has its text searched for an achievement (484-495,
    the change of the achievements is [show_ending] below) and offers no
    choice; any other node offers the items of its choices (514, 518).
    The display calls in between ([st.markdown], [st.code]) take any
    value. *)
Definition choices_list (a : EnhancedStoryAgent) (s : session)
  : result (list (key * value)) :=
  rbind (get_node a (current_node s)) (fun n =>
  rbind (border_color (mood n)) (fun _ =>
  if truthy (choices n) then items (choices n)
  else rbind (achievement_of (text n)) (fun _ => Ok []))).

(** Lines 534-537: the body of a choice button, for the target [child_id]
    of that button. *)
Definition choice_button (a : EnhancedStoryAgent) (child_id : value)
  : M session unit :=
  (modify (append_progress child_id) ;;
   modify (set_current_node child_id) ;;
   n <- lift (get_node a child_id) ;;
   modify (fun s => set_story_text (story_text s ++ [text n]) s) ;;
   modify (add_choices_made 1))%py.

(** Pressing the button labelled [label].  [None]: the page shows no such
    button (also when rendering the current node raised). *)
Definition choose (a : EnhancedStoryAgent) (label : string) (s : session)
  : option (result unit * session) :=
  match choices_list a s with
  | Ok l =>
      match dict_get key_eqb l (KStr label) with
      | Some child_id => Some (choice_button a child_id s)
      | None => None
      end
  | Raise _ => None
  end.

(** ** The rest of the agent and of the page

    [get_root], and the handlers of the page that change the graph or the
    session: restart, import, the two authoring buttons, the achievement
    badge of an ending and the text export.  An identifier drawn by
    [uuid.uuid4()] is an argument of the handler that draws it. *)

(** Lines 47-50.  [RuntimeError] is raised by [get_root] only, so it is a
    case of the outcome of [get_root] and not of [exn]. *)
Inductive root_outcome : Type :=
| Root (n : StoryNode)
| RuntimeError (msg : string)
| RootRaise (e : exn).

Definition get_root (a : EnhancedStoryAgent) : root_outcome :=
  match root_id a with
  | None => RuntimeError "No root node set in story tree."
  | Some r =>
      match get_node a (VStr r) with
      | Ok n => Root n
      | Raise e => RootRaise e
      end
  end.

(** [agent.load_tree(data)] for whatever [json.loads] returned (line 434):
    line 31 runs in any case, and only a dict has [items] (line 32). *)
Definition load_data (data : value) : M EnhancedStoryAgent unit :=
  match data with
  | VDict d => load_tree d
  | _ => (modify (set_story_nodes []) ;; lift (Raise AttributeError))%py
  end.

(** The agent and the session of [st.session_state] together. *)
Record page : Type := mkPage {
  agent : EnhancedStoryAgent;
  state : session
}.

Definition on_agent {A} (m : M EnhancedStoryAgent A) : M page A :=
  fun p => let (r, a) := m (agent p) in (r, mkPage a (state p)).

Definition on_session {A} (m : M session A) : M page A :=
  fun p => let (r, s) := m (state p) in (r, mkPage (agent p) s).

(** [try: body except Exception as e: handler] *)
Definition try_except {S A} (body : M S A) (handler : exn -> M S A) : M S A :=
  fun s =>
    match body s with
    | (Ok a, s') => (Ok a, s')
    | (Raise e, s') => handler e s'
    end.

(** What a handler shows: [st.success], [st.warning], [st.error] with the
    exception it reports, or nothing. *)
Inductive feedback : Type :=
| Success (msg : string)
| Caution (msg : string)
| Failed (e : exn)
| Quiet.

Definition set_achievements (l : list string) (s : session) : session :=
  mkSession (progress s) (current_node s) (story_text s) l (choices_made s).

Definition set_choices_made (z : Z) (s : session) : session :=
  mkSession (progress s) (current_node s) (story_text s) (achievements s) z.

(** Lines 352-354 and again 435-437: the three assignments that put the
    session at the root. *)
Definition to_root (a : EnhancedStoryAgent) : M session unit :=
  (modify (set_progress [value_of_root (root_id a)]) ;;
   modify (set_current_node (value_of_root (root_id a))) ;;
   n <- lift (get_node a (value_of_root (root_id a))) ;;
   modify (set_story_text [text n]))%py.

(** Lines 352-358: the body of the restart button. *)
Definition restart (a : EnhancedStoryAgent) : M session feedback :=
  (to_root a ;;
   modify (set_achievements []) ;;
   modify (set_choices_made 0) ;;
   ret (Success "✨ Story restarted!"))%py.

(** Lines 432-442: the import of an uploaded definition, from the value
    that [json.loads] returned.  [choices_made] is not assigned.  The
    rerun that ends the successful path is a control signal of the page
    runner and not an [Exception], so the handler does not catch it. *)
Definition import_story (data : value) : M page feedback :=
  try_except
    (on_agent (load_data data) ;;
     p <- read ;;
     on_session (to_root (agent p)) ;;
     on_session (modify (set_achievements [])) ;;
     ret (Success "📚 Story tree imported successfully!"))%py
    (fun e => ret (Failed e)).

(** A byte that continues a UTF-8 code point: 10xxxxxx. *)
Definition is_continuation (c : ascii) : bool :=
  (128 <=? nat_of_ascii c)%nat && (nat_of_ascii c <? 192)%nat.

(** [s[:n]]: the first [n] code points of [s]. *)
Fixpoint take_chars (n : nat) (s : string) : string :=
  match s with
  | EmptyString => EmptyString
  | String c s' =>
      if is_continuation c then String c (take_chars n s')
      else match n with
           | O => EmptyString
           | S n' => String c (take_chars n' s')
           end
  end.

(** [self.story_nodes[from_id].choices[choice_text] = to_id] for a
    [from_id] that is any value, as the session's current node is. *)
Definition link_choice_at (from_id : value) (choice_text : string) (to_id : value)
  : M EnhancedStoryAgent unit :=
  match from_id with
  | VStr f => link_choice f choice_text to_id
  | _ => (a <- read ;;
          n <- lift (get_node a from_id) ;;
          _ <- lift (setitem (choices n) choice_text to_id) ;;
          ret tt)%py
  end.

(** Line 406. *)
Definition scene_label (new_text : string) : string :=
  ("Continue to: " ++ take_chars 30 (strip new_text) ++ "...")%string.

(** Lines 402-410: the body of "Create New Scene", for the contents of the
    three widgets; [nid] is the identifier [add_node] draws. *)
Definition create_scene (nid new_text image_prompt mood : string)
  : M page feedback :=
  if truthy (VStr (strip new_text)) then
    (n <- on_agent (add_node nid (VStr (strip new_text)) (VDict [])
                             (VStr image_prompt) (VStr mood)) ;;
     p <- read ;;
     on_agent (link_choice_at (current_node (state p)) (scene_label new_text)
                              (VStr n)) ;;
     ret (Success "🎭 New scene created! It will appear as a choice."))%py
  else ret (Caution "Please write some text for the new scene.").

(** Lines 414-422: the body of "Add Branching Choice"; [nid1] and [nid2]
    are the identifiers the two calls of [add_node] draw.  The first call
    leaves [image_prompt] and [mood] to their defaults; without text the
    button does nothing. *)
Definition add_branch (nid1 nid2 new_text image_prompt mood : string)
  : M page feedback :=
  if truthy (VStr (strip new_text)) then
    (n1 <- on_agent (add_node nid1 (VStr "You come to a crossroads...") (VDict [])
                              (VStr "") (VStr "neutral")) ;;
     n2 <- on_agent (add_node nid2 (VStr (strip new_text)) (VDict [])
                              (VStr image_prompt) (VStr mood)) ;;
     p <- read ;;
     on_agent (link_choice_at (current_node (state p)) "Face a new challenge"
                              (VStr n1)) ;;
     on_agent (link_choice n1 "Take the left path" (VStr n2)) ;;
     p' <- read ;;
     on_agent (link_choice n1 "Take the right path"
                           (value_of_root (root_id (agent p')))) ;;
     ret (Success "🔄 Added branching storyline!"))%py
  else ret Quiet.

(** Lines 490-495, for a node text that is a [str]: the name that was
    newly unlocked, if any.  [achievements] is a set; only membership is
    used here, so it is kept as the list of its members in the order they
    were added. *)
Definition unlock (t : string) : M session (option string) :=
  (r <- lift (detect_achievement t) ;;
   match r with
   | None => ret None
   | Some achievement =>
       s <- read ;;
       if existsb (String.eqb achievement) (achievements s) then ret None
       else
         modify (set_achievements (achievements s ++ [achievement])) ;;
         ret (Some achievement)
   end)%py.

(** Lines 484-495: the achievement part of showing a node with the choices
    [c] and the text [t]; only an ending is searched for a marker. *)
Definition show_ending (c : value) (t : string) : M session (option string) :=
  if truthy c then ret None else unlock t.

(** Line 447, for texts that are [str]. *)
Definition newline : string := bytes [10].

Definition chapter (i : nat) (t : string) : string :=
  ("Chapter " ++ str (KInt (Z.of_nat (i + 1))) ++ ":" ++ newline ++ t)%string.

(** [enumerate(l)] *)
Definition enumerate {A} (l : list A) : list (nat * A) :=
  combine (seq 0 (List.length l)) l.

Definition compiled_story (texts : list string) : string :=
  String.concat (newline ++ newline)
    (map (fun it => chapter (fst it) (snd it)) (enumerate texts)).

(** ** Vocabulary of the properties *)

(** A node entry of a definition is map-shaped. *)
Definition is_dict (v : value) : bool :=
  match v with
  | VDict _ => true
  | _ => false
  end.

(** The field value [v] comes from the entry [d]: the value under [name]
    when the entry has that key, [default] otherwise. *)
Definition field_from (d : dict key value) (name : string) (default v : value)
  : Prop :=
  match dict_get key_eqb d (KStr name) with
  | Some x => v = x
  | None => v = default
  end.

(** The choice labels of a node, in the order of its buttons. *)
Definition choice_labels (n : StoryNode) : list key :=
  match choices n with
  | VDict d => keys d
  | _ => []
  end.

Definition set_id (i : string) (n : StoryNode) : StoryNode :=
  mkStoryNode i (text n) (choices n) (metadata n) (image_prompt n) (mood n).

(** The agents the program can hold: built by the constructor and changed
    by [load_tree] (whether it returns or raises), [add_node] and
    [link_choice]. *)
Inductive held : EnhancedStoryAgent -> Prop :=
| held_new : held (mkAgent [] None)
| held_load tree a : held a -> held (snd (load_tree tree a))
| held_add nid t c ip md a : held a -> held (snd (add_node nid t c ip md a))
| held_link f l t a : held a -> held (snd (link_choice f l t a)).

(** The sessions a user can be in: started on some graph, then moved by
    choice buttons that returned and by the undo button.  The graph may be
    edited between two steps. *)
Inductive reachable : session -> Prop :=
| reach_start a s :
    start a = Ok s -> reachable s
| reach_choose a label s s' :
    reachable s -> choose a label s = Some (Ok tt, s') -> reachable s'
| reach_undo s r s' :
    reachable s -> undo s = (Ok r, s') -> reachable s'.

(** The name the specification promises for a text: what lies strictly
    between the first marker and the first trophy behind it, trimmed. *)
Definition between_marker_and_trophy (t name : string) : Prop :=
  exists pre body post,
    t = (pre ++ marker ++ body ++ trophy ++ post)%string /\
    (forall p q, t = (p ++ marker ++ q)%string ->
                 String.length pre <= String.length p) /\
    (forall p q, body ++ trophy ++ post = p ++ trophy ++ q ->
                 String.length body <= String.length p)%string /\
    name = strip body.

(** An entry of the exported definition, and the node it is loaded as. *)
Definition exported (e : string * StoryNode) : key * value :=
  (KStr (fst e), export_entry (snd e)).

Definition reloaded (e : string * StoryNode) : string * StoryNode :=
  (fst e, set_id (fst e) (snd e)).

(** The node mapping of an agent the program holds has distinct keys, and
    every node carries its key as [id]. *)
Definition well_keyed (d : dict string StoryNode) : Prop :=
  NoDup (keys d) /\ forall k n, dict_get String.eqb d k = Some n -> id n = k.

(** [h] is the part of [s] in front of the leftmost [sep], or all of [s]
    when [sep] does not occur. *)
Definition up_to (sep s h : string) : Prop :=
  (h = s /\ forall p q, s <> (p ++ sep ++ q)%string) \/
  (exists t, s = (h ++ sep ++ t)%string /\
             forall p q, s = (p ++ sep ++ q)%string ->
                         String.length h <= String.length p).

(** ** Sample data

    Three nodes of [enhanced_sample_story_tree] (lines 79-127), with their
    texts cut down to the titles, and small definitions used as concrete
    inputs below.  The nodes behind the forest and the village are outside
    the cut, so the choices that lead to them have no target here. *)

Definition sample_tree : dict key value :=
  [ (KStr "start",
     VDict [ (KStr "text", VStr "🌅 **The Awakening**");
             (KStr "choices",
              VDict [ (KStr "🌲 Take the forest trail - embrace the unknown",
                       VStr "forest_entrance");
                      (KStr "🏡 Walk to the village - seek civilization",
                       VStr "village_gate") ]);
             (KStr "image_prompt",
              VStr "fantasy landscape with violet clouds, ancient map, two diverging paths in magical forest");
             (KStr "mood", VStr "mysterious") ]);
    (KStr "forest_entrance",
     VDict [ (KStr "text", VStr "🌲 **The Whispering Woods**");
             (KStr "choices",
              VDict [ (KStr "✨ Follow the mysterious light - curiosity calls",
                       VStr "mystic_clearing");
                      (KStr "🚪 Enter the hollow trunk - brave the darkness",
                       VStr "hollow_trunk");
                      (KStr "🔙 Return to the crossroads - reconsider your path",
                       VStr "start") ]);
             (KStr "image_prompt",
              VStr "enchanted forest with glowing lights, ancient trees, mysterious hollow trunk");
             (KStr "mood", VStr "magical") ]);
    (KStr "village_gate",
     VDict [ (KStr "text", VStr "🏡 **Ravenwood Village Gates**");
             (KStr "choices",
              VDict [ (KStr "💎 Buy the mysterious amulet - invest in magic",
                       VStr "amulet_shop");
                      (KStr "🧠 Politely refuse and ask about the map - seek knowledge",
                       VStr "old_scholar");
                      (KStr "🔙 Return to the crossroads", VStr "start") ]);
             (KStr "image_prompt",
              VStr "fantasy village gate with merchant, children playing, magical amulet");
             (KStr "mood", VStr "hopeful") ]) ].

Definition empty_agent : EnhancedStoryAgent :=
  {| story_nodes := []; root_id := None |}.

(** The agent of the page after its first run on [sample_tree]. *)
Definition sample_agent : EnhancedStoryAgent :=
  snd (load_tree sample_tree empty_agent).

(** A definition that spells the image prompt in camel case. *)
Definition camel_tree : dict key value :=
  [ (KStr "start",
     VDict [ (KStr "text", VStr "A lone lighthouse");
             (KStr "imagePrompt", VStr "ancient lighthouse on stormy cliff") ]) ].

(** A definition whose second entry is a string instead of a map. *)
Definition broken_tree : dict key value :=
  [ (KStr "cove", VDict [ (KStr "text", VStr "A hidden cove") ]);
    (KStr "start", VStr "not a node") ].

(** A definition with integer keys and no ["start"]. *)
Definition numbered_tree : dict key value :=
  [ (KInt 7, VDict [ (KStr "text", VStr "seven") ]);
    (KInt (-3), VDict []) ].

(** A definition whose only choice leads to a node that does not exist,
    the agent loaded from it and the session started on it. *)
Definition dangling_tree : dict key value :=
  [ (KStr "start",
     VDict [ (KStr "text", VStr "A locked door");
             (KStr "choices", VDict [ (KStr "Open the door", VStr "cellar") ]) ]) ].

Definition dangling_agent : EnhancedStoryAgent :=
  snd (load_tree dangling_tree empty_agent).

Definition dangling_session : session :=
  {| progress := [VStr "start"];
     current_node := VStr "start";
     story_text := [VStr "A locked door"];
     achievements := [];
     choices_made := 0 |}.

(** The session started on [sample_agent], and the same session one choice
    later. *)
Definition sample_session : session :=
  {| progress := [VStr "start"];
     current_node := VStr "start";
     story_text := [VStr "🌅 **The Awakening**"];
     achievements := [];
     choices_made := 0 |}.

Definition forest_session : session :=
  {| progress := [VStr "start"; VStr "forest_entrance"];
     current_node := VStr "forest_entrance";
     story_text := [VStr "🌅 **The Awakening**"; VStr "🌲 **The Whispering Woods**"];
     achievements := [];
     choices_made := 1 |}.

(** A definition whose node has a string where the choices belong, and
    the agent loaded from it. *)
Definition scalar_choices_tree : dict key value :=
  [ (KStr "start",
     VDict [ (KStr "text", VStr "A wall"); (KStr "choices", VStr "none") ]) ].

Definition scalar_choices_agent : EnhancedStoryAgent :=
  snd (load_tree scalar_choices_tree empty_agent).

(** A graph that the page can always show: every node has a text that is
    a [str], a mood that can be hashed and a choices dict, and every
    target in it is the id of a node (no dangling link). *)
Definition closed (a : EnhancedStoryAgent) : Prop :=
  forall k n,
    dict_get String.eqb (story_nodes a) k = Some n ->
    (exists t, text n = VStr t) /\
    hashable (mood n) = true /\
    exists d,
      choices n = VDict d /\
      forall label child, In (label, child) d ->
                          exists m, get_node a child = Ok m.

(** The sessions of one graph that stays as it is: started on it, then
    moved by choices that returned and by undo. *)
Inductive walk (a : EnhancedStoryAgent) : session -> Prop :=
| walk_start s :
    start a = Ok s -> walk a s
| walk_choose label s s' :
    walk a s -> choose a label s = Some (Ok tt, s') -> walk a s'
| walk_undo s r s' :
    walk a s -> undo s = (Ok r, s') -> walk a s'.

(** Two nodes that lead to each other, and the agent loaded from them. *)
Definition loop_tree : dict key value :=
  [ (KStr "start",
     VDict [ (KStr "text", VStr "A clearing");
             (KStr "choices", VDict [ (KStr "Go on", VStr "bridge") ]) ]);
    (KStr "bridge",
     VDict [ (KStr "text", VStr "A bridge");
             (KStr "choices", VDict [ (KStr "Go back", VStr "start") ]) ]) ].

Definition loop_agent : EnhancedStoryAgent :=
  snd (load_tree loop_tree empty_agent).

Definition loop_session : session :=
  {| progress := [VStr "start"];
     current_node := VStr "start";
     story_text := [VStr "A clearing"];
     achievements := [];
     choices_made := 0 |}.

(** ** Facts about dictionaries *)

Section DictFacts.
Variables K V : Type.
Variable eqb : K -> K -> bool.

Lemma dict_set_absent (d : dict K V) k v :
  dict_get eqb d k = None -> dict_set eqb d k v = d ++ [(k, v)].
Proof.
  induction d as [|[k' v'] d IH]; simpl; intros H; [reflexivity|].
  destruct (eqb k' k); [discriminate|].
  now rewrite IH.
Qed.

Lemma dict_set_present_keys (d : dict K V) k v old :
  dict_get eqb d k = Some old -> keys (dict_set eqb d k v) = keys d.
Proof.
  induction d as [|[k' v'] d IH]; simpl; intros H; [discriminate|].
  destruct (eqb k' k); simpl; [reflexivity|].
  now rewrite IH.
Qed.

Lemma dict_set_present_get (d : dict K V) k v old :
  dict_get eqb d k = Some old -> dict_get eqb (dict_set eqb d k v) k = Some v.
Proof.
  induction d as [|[k' v'] d IH]; simpl; intros H; [discriminate|].
  destruct (eqb k' k) eqn:E; simpl; rewrite E; [reflexivity|].
  now apply IH.
Qed.

(** An overwritten entry stays where it was. *)
Lemma dict_set_present_place (d : dict K V) k v old :
  dict_get eqb d k = Some old ->
  exists d1 k' d2,
    d = d1 ++ (k', old) :: d2 /\
    dict_set eqb d k v = d1 ++ (k', v) :: d2 /\
    eqb k' k = true /\
    dict_get eqb d1 k = None.
Proof.
  induction d as [|[k' v'] d IH]; simpl; intros H; [discriminate|].
  destruct (eqb k' k) eqn:E.
  - injection H as ->. exists [], k', d. simpl. auto.
  - destruct (IH H) as (d1 & k'' & d2 & -> & Hs & Hk & Hn).
    exists ((k', v') :: d1), k'', d2. simpl. rewrite Hs, E. auto.
Qed.

Hypothesis eqb_eq : forall x y, eqb x y = true <-> x = y.

Lemma eqb_refl x : eqb x x = true.
Proof. now apply eqb_eq. Qed.

Lemma eqb_neq x y : x <> y -> eqb x y = false.
Proof.
  intros H. destruct (eqb x y) eqn:E; [|reflexivity].
  now apply eqb_eq in E.
Qed.

Lemma dict_get_set_same (d : dict K V) k v :
  dict_get eqb (dict_set eqb d k v) k = Some v.
Proof.
  induction d as [|[k' v'] d IH]; simpl.
  - now rewrite eqb_refl.
  - destruct (eqb k' k) eqn:E; simpl; rewrite E; auto.
Qed.

Lemma dict_get_set_other (d : dict K V) k v k2 :
  k <> k2 -> dict_get eqb (dict_set eqb d k v) k2 = dict_get eqb d k2.
Proof.
  intros Hne.
  induction d as [|[k' v'] d IH]; simpl.
  - now rewrite eqb_neq.
  - destruct (eqb k' k) eqn:E; simpl.
    + apply eqb_eq in E. subst k'. now rewrite eqb_neq.
    + now rewrite IH.
Qed.

Lemma dict_get_In (d : dict K V) k v :
  dict_get eqb d k = Some v -> In (k, v) d.
Proof.
  induction d as [|[k' v'] d IH]; simpl; intros H; [discriminate|].
  destruct (eqb k' k) eqn:E.
  - apply eqb_eq in E. injection H as ->. subst. now left.
  - right. now apply IH.
Qed.

Lemma dict_get_None_keys (d : dict K V) k :
  dict_get eqb d k = None <-> ~ In k (keys d).
Proof.
  induction d as [|[k' v'] d IH]; simpl.
  - tauto.
  - destruct (eqb k' k) eqn:E.
    + apply eqb_eq in E. split; [discriminate|]. intros H. exfalso. auto.
    + rewrite IH. split.
      * intros H [H1|H1]; [|tauto]. subst. now rewrite eqb_refl in E.
      * tauto.
Qed.

Lemma dict_mem_keys (d : dict K V) k :
  dict_mem eqb d k = true <-> In k (keys d).
Proof.
  unfold dict_mem. destruct (dict_get eqb d k) eqn:E.
  - split; [intros _|reflexivity].
    apply dict_get_In in E. unfold keys. now apply (in_map fst) in E.
  - split; [discriminate|]. intros H. now apply dict_get_None_keys in E.
Qed.

Lemma dict_set_keys (d : dict K V) k v :
  keys (dict_set eqb d k v) =
  if dict_mem eqb d k then keys d else keys d ++ [k].
Proof.
  unfold dict_mem. destruct (dict_get eqb d k) eqn:E.
  - eapply dict_set_present_keys; eauto.
  - rewrite dict_set_absent by assumption. unfold keys.
    now rewrite map_app.
Qed.

Lemma dict_set_NoDup (d : dict K V) k v :
  NoDup (keys d) -> NoDup (keys (dict_set eqb d k v)).
Proof.
  intros H. rewrite dict_set_keys.
  destruct (dict_mem eqb d k) eqn:E; [assumption|].
  apply NoDup_app; repeat split; auto.
  - constructor; [simpl; tauto|constructor].
  - intros x Hx [<-|[]].
    apply dict_mem_keys in Hx. congruence.
Qed.

Lemma dict_get_NoDup_In (d : dict K V) k v :
  NoDup (keys d) -> In (k, v) d -> dict_get eqb d k = Some v.
Proof.
  induction d as [|[k' v'] d IH]; simpl; intros Hnd Hin; [contradiction|].
  inversion Hnd as [|? ? Hni Hnd']; subst.
  destruct Hin as [Heq|Hin].
  - injection Heq as -> ->. now rewrite eqb_refl.
  - destruct (eqb k' k) eqn:E.
    + apply eqb_eq in E. subst k'. exfalso. apply Hni.
      now apply (in_map fst) in Hin.
    + now apply IH.
Qed.
End DictFacts.

(** ** Facts about [load_tree] *)

Lemma str_eqb_eq (x y : string) : String.eqb x y = true <-> x = y.
Proof. apply String.eqb_eq. Qed.

Lemma key_eqb_KStr (k : key) (s : string) :
  key_eqb k (KStr s) = true <-> k = KStr s.
Proof.
  destruct k; simpl; split; try discriminate.
  - intros H. apply String.eqb_eq in H. now subst.
  - intros H. injection H as ->. apply String.eqb_refl.
Qed.

Lemma dict_mem_KStr (d : dict key value) (s : string) :
  dict_mem key_eqb d (KStr s) = true <-> In (KStr s) (keys d).
Proof.
  unfold dict_mem.
  induction d as [|[k v] d IH]; simpl.
  - split; [discriminate|tauto].
  - destruct (key_eqb k (KStr s)) eqn:E.
    + apply key_eqb_KStr in E. subst. tauto.
    + rewrite IH. split; [tauto|]. intros [H|H]; [|assumption].
      subst k. simpl in E. now rewrite String.eqb_refl in E.
Qed.

Lemma get_dict d name default :
  exists v, get (VDict d) name default = Ok v /\ field_from d name default v.
Proof.
  unfold get, field_from.
  destruct (dict_get key_eqb d (KStr name)); eauto.
Qed.

(** A map-shaped entry always yields a node, field by field. *)
Lemma node_of_entry_dict nid d :
  exists n,
    node_of_entry nid (VDict d) = Ok n /\
    id n = str nid /\
    field_from d "text" (VStr "") (text n) /\
    field_from d "choices" (VDict []) (choices n) /\
    field_from d "metadata" (VDict []) (metadata n) /\
    field_from d "image_prompt" (VStr "") (image_prompt n) /\
    field_from d "mood" (VStr "neutral") (mood n).
Proof.
  unfold node_of_entry.
  destruct (get_dict d "text" (VStr "")) as (t & -> & Ht).
  destruct (get_dict d "choices" (VDict [])) as (c & -> & Hc).
  destruct (get_dict d "metadata" (VDict [])) as (m & -> & Hm).
  destruct (get_dict d "image_prompt" (VStr "")) as (i & -> & Hi).
  destruct (get_dict d "mood" (VStr "neutral")) as (md & -> & Hmd).
  simpl. eexists. split; [reflexivity|]. simpl. auto 10.
Qed.

(** Any other entry has no [get]. *)
Lemma node_of_entry_other nid v :
  is_dict v = false -> node_of_entry nid v = Raise AttributeError.
Proof. destruct v; simpl; intros H; try reflexivity; discriminate. Qed.

Lemma node_of_entry_Ok nid v n :
  node_of_entry nid v = Ok n -> exists d, v = VDict d.
Proof.
  destruct v; try (simpl; discriminate). eauto.
Qed.

(** One turn of the loop. *)
Lemma for_each_load_cons nid node l a :
  for_each ((nid, node) :: l) load_entry a =
  match node_of_entry nid node with
  | Ok n =>
      for_each l load_entry
        (set_story_nodes (dict_set String.eqb (story_nodes a) (str nid) n) a)
  | Raise e => (Raise e, a)
  end.
Proof.
  simpl. unfold bind, lift, modify.
  now destruct (node_of_entry nid node).
Qed.

(** The loop never touches the root, whether it returns or raises. *)
Lemma for_each_load_root l : forall a,
  root_id (snd (for_each l load_entry a)) = root_id a.
Proof.
  induction l as [|[nid node] l IH]; intros a; [reflexivity|].
  rewrite for_each_load_cons.
  destruct (node_of_entry nid node); [|reflexivity].
  now rewrite IH.
Qed.

(** The loop returns exactly when every entry is map-shaped, and raises
    [AttributeError] otherwise. *)
Lemma for_each_load_result l : forall a,
  fst (for_each l load_entry a) =
  if forallb (fun e => is_dict (snd e)) l then Ok tt else Raise AttributeError.
Proof.
  induction l as [|[nid node] l IH]; intros a; [reflexivity|].
  rewrite for_each_load_cons. simpl.
  destruct (is_dict node) eqn:E.
  - destruct node; try discriminate.
    destruct (node_of_entry_dict nid d) as (n & -> & _).
    now rewrite IH.
  - now rewrite node_of_entry_other.
Qed.

(** Nodes are only ever added or overwritten by the loop. *)
Lemma for_each_load_mem l : forall a s,
  In s (keys (story_nodes a)) ->
  In s (keys (story_nodes (snd (for_each l load_entry a)))).
Proof.
  induction l as [|[nid node] l IH]; intros a s H; [assumption|].
  rewrite for_each_load_cons.
  destruct (node_of_entry nid node); [|assumption].
  apply IH. simpl.
  rewrite dict_set_keys.
  destruct (dict_mem String.eqb (story_nodes a) (str nid)); [assumption|].
  apply in_or_app. now left.
Qed.

(** When the loop returns, every key of the definition has a node under
    its string form. *)
Lemma for_each_load_all l : forall a a',
  for_each l load_entry a = (Ok tt, a') ->
  forall k v, In (k, v) l -> In (str k) (keys (story_nodes a')).
Proof.
  induction l as [|[nid node] l IH]; intros a a' H k v Hin; [contradiction|].
  rewrite for_each_load_cons in H.
  destruct (node_of_entry nid node) as [n|] eqn:E; [|discriminate].
  destruct Hin as [Heq|Hin].
  - injection Heq as -> ->.
    replace a' with (snd (for_each l load_entry
      (set_story_nodes (dict_set String.eqb (story_nodes a) (str k) n) a)))
      by now rewrite H.
    apply for_each_load_mem. simpl.
    apply (dict_mem_keys _ str_eqb_eq).
    unfold dict_mem. now rewrite (dict_get_set_same _ str_eqb_eq).
  - eapply IH; eauto.
Qed.

(** Where the nodes come from once the loop is over (or has raised): from
    before the loop, or from a map-shaped entry of the definition. *)
Lemma for_each_load_origin l : forall a s n,
  dict_get String.eqb (story_nodes (snd (for_each l load_entry a))) s = Some n ->
  dict_get String.eqb (story_nodes a) s = Some n \/
  exists k d, In (k, VDict d) l /\ str k = s /\ node_of_entry k (VDict d) = Ok n.
Proof.
  induction l as [|[nid node] l IH]; intros a s n H; [now left|].
  rewrite for_each_load_cons in H.
  destruct (node_of_entry nid node) as [n0|] eqn:E; [|now left].
  apply IH in H. destruct H as [H|(k & d & Hin & Hs & Hn)].
  - simpl in H. destruct (String.eqb (str nid) s) eqn:Es.
    + apply String.eqb_eq in Es. subst s.
      rewrite (dict_get_set_same _ str_eqb_eq) in H. injection H as ->.
      destruct (node_of_entry_Ok _ _ E) as (d & ->).
      right. exists nid, d. simpl. auto.
    + apply String.eqb_neq in Es.
      rewrite (dict_get_set_other _ str_eqb_eq) in H by assumption. now left.
  - right. exists k, d. simpl. auto.
Qed.

(** [load_tree] in one piece. *)
Lemma load_tree_unfold tree a :
  load_tree tree a =
  match for_each tree load_entry (set_story_nodes [] a) with
  | (Ok _, a1) => (Ok tt, set_root_id (root_of tree (story_nodes a1)) a1)
  | (Raise e, a1) => (Raise e, a1)
  end.
Proof.
  unfold load_tree, bind, modify. simpl.
  now destruct (for_each tree load_entry (set_story_nodes [] a)) as [[[]|e] a1].
Qed.

(** ** Loading a definition *)

(** C10.  When [load_tree] accepts a definition, every key [k] of it has a
    node under the string [str k] whose [id] is [str k], whatever the type
    of [k]; [get_node] finds that node under the string; and every stored
    node carries its own key as [id]. *)
Theorem load_tree_string_ids tree a a' :
  load_tree tree a = (Ok tt, a') ->
  (forall k v, In (k, v) tree ->
     exists n, dict_get String.eqb (story_nodes a') (str k) = Some n /\
               id n = str k /\
               get_node a' (VStr (str k)) = Ok n) /\
  (forall s n, dict_get String.eqb (story_nodes a') s = Some n -> id n = s).
Proof.
  rewrite load_tree_unfold.
  destruct (for_each tree load_entry (set_story_nodes [] a)) as [[[]|e] a1] eqn:E;
    [|discriminate].
  intros H. injection H as <-. simpl.
  assert (Hid : forall s n,
             dict_get String.eqb (story_nodes a1) s = Some n -> id n = s).
  { intros s n Hs.
    replace a1 with (snd (for_each tree load_entry (set_story_nodes [] a))) in Hs
      by now rewrite E.
    apply for_each_load_origin in Hs.
    destruct Hs as [Hs|(k & d & _ & <- & Hn)]; [discriminate|].
    destruct (node_of_entry_dict k d) as (n' & Hn' & Hi & _).
    congruence. }
  split; [|assumption].
  intros k v Hin.
  pose proof (for_each_load_all _ _ E _ _ Hin) as Hk.
  destruct (dict_get String.eqb (story_nodes a1) (str k)) as [n|] eqn:G.
  - exists n. auto.
  - apply (dict_get_None_keys _ str_eqb_eq) in G. contradiction.
Qed.

Lemma load_tree_string_ids_witness :
  exists n,
    dict_get String.eqb (story_nodes (snd (load_tree numbered_tree sample_agent)))
      "-3" = Some n /\
    id n = "-3" /\
    get_node (snd (load_tree numbered_tree sample_agent)) (VStr "-3") = Ok n.
Proof.
  apply (proj1 (@load_tree_string_ids numbered_tree sample_agent
                  (snd (load_tree numbered_tree sample_agent)) eq_refl)
           (KInt (-3)) (VDict [])).
  simpl. auto.
Defined.

(** C4, as stated, fails: an entry that gives the prompt under the key
    [imagePrompt] is accepted, and the node gets the empty prompt. *)
Lemma load_tree_ignores_imagePrompt :
  exists n,
    load_tree camel_tree empty_agent =
      (Ok tt, {| story_nodes := [("start", n)]; root_id := Some "start" |}) /\
    get (VDict [ (KStr "text", VStr "A lone lighthouse");
                 (KStr "imagePrompt", VStr "ancient lighthouse on stormy cliff") ])
        "imagePrompt" (VStr "") = Ok (VStr "ancient lighthouse on stormy cliff") /\
    image_prompt n = VStr "" /\
    image_prompt n <> VStr "ancient lighthouse on stormy cliff".
Proof.
  eexists. split; [reflexivity|]. simpl. repeat split. discriminate.
Qed.

(** C4, amended.  When [load_tree] accepts a definition, every stored node
    was built from a map-shaped entry of the definition filed under the
    string form of its key, and each field is the entry's value under the
    field's key when the entry has that key and the default otherwise:
    [""] for [text], [{}] for [choices] and [metadata], [""] for the image
    prompt, ["neutral"] for [mood].  The image prompt is read from the key
    [image_prompt] only. *)
Theorem load_tree_defaults tree a a' :
  load_tree tree a = (Ok tt, a') ->
  forall s n, dict_get String.eqb (story_nodes a') s = Some n ->
  exists k d,
    In (k, VDict d) tree /\ str k = s /\
    field_from d "text" (VStr "") (text n) /\
    field_from d "choices" (VDict []) (choices n) /\
    field_from d "metadata" (VDict []) (metadata n) /\
    field_from d "image_prompt" (VStr "") (image_prompt n) /\
    field_from d "mood" (VStr "neutral") (mood n).
Proof.
  rewrite load_tree_unfold.
  destruct (for_each tree load_entry (set_story_nodes [] a)) as [[[]|e] a1] eqn:E;
    [|discriminate].
  intros H. injection H as <-. simpl. intros s n Hs.
  replace a1 with (snd (for_each tree load_entry (set_story_nodes [] a))) in Hs
    by now rewrite E.
  apply for_each_load_origin in Hs.
  destruct Hs as [Hs|(k & d & Hin & <- & Hn)]; [discriminate|].
  destruct (node_of_entry_dict k d) as (n' & Hn' & _ & Hf).
  assert (n' = n) as -> by congruence.
  exists k, d. auto.
Qed.

Lemma load_tree_defaults_witness :
  exists k d,
    In (k, VDict d) numbered_tree /\ str k = "-3" /\
    field_from d "text" (VStr "") (VStr "") /\
    field_from d "choices" (VDict []) (VDict []) /\
    field_from d "metadata" (VDict []) (VDict []) /\
    field_from d "image_prompt" (VStr "") (VStr "") /\
    field_from d "mood" (VStr "neutral") (VStr "neutral").
Proof.
  apply (@load_tree_defaults numbered_tree empty_agent
           (snd (load_tree numbered_tree empty_agent)) eq_refl
           "-3" (mkStoryNode "-3" (VStr "") (VDict []) (VDict []) (VStr "")
                             (VStr "neutral")) eq_refl).
Defined.

(** C5.  When [load_tree] accepts a definition: if ["start"] is among its
    keys the root is ["start"], wherever that key stands and whatever the
    other keys are; if the definition is not empty and has no ["start"] the
    root is a key of the node mapping; if the definition is empty there is
    no root. *)
Theorem load_tree_root tree a a' :
  load_tree tree a = (Ok tt, a') ->
  (In (KStr "start") (keys tree) -> root_id a' = Some "start") /\
  (tree <> [] -> ~ In (KStr "start") (keys tree) ->
     exists r, root_id a' = Some r /\ In r (keys (story_nodes a'))) /\
  (tree = [] -> root_id a' = None).
Proof.
  rewrite load_tree_unfold.
  destruct (for_each tree load_entry (set_story_nodes [] a)) as [[[]|e] a1] eqn:E;
    [|discriminate].
  intros H. injection H as <-. simpl. unfold root_of.
  repeat split.
  - intros Hin. apply dict_mem_KStr in Hin. now rewrite Hin.
  - intros Hne Hin.
    destruct (dict_mem key_eqb tree (KStr "start")) eqn:Es.
    { apply dict_mem_KStr in Es. contradiction. }
    destruct tree as [|[k v] tree]; [congruence|].
    pose proof (for_each_load_all _ _ E k v (or_introl eq_refl)) as Hk.
    destruct (story_nodes a1) as [|[r n] d]; [contradiction|].
    exists r. simpl. auto.
  - intros ->. simpl in E. injection E as <-. reflexivity.
Qed.

Lemma load_tree_root_witness :
  root_id (snd (load_tree sample_tree empty_agent)) = Some "start" /\
  (exists r, root_id (snd (load_tree numbered_tree sample_agent)) = Some r /\
             In r (keys (story_nodes (snd (load_tree numbered_tree sample_agent))))) /\
  root_id (snd (load_tree [] sample_agent)) = None.
Proof.
  split; [|split].
  - apply (@load_tree_root sample_tree empty_agent
             (snd (load_tree sample_tree empty_agent)) eq_refl).
    simpl. auto.
  - apply (@load_tree_root numbered_tree sample_agent
             (snd (load_tree numbered_tree sample_agent)) eq_refl).
    + discriminate.
    + simpl. intros [H|[H|[]]]; discriminate.
  - now apply (@load_tree_root [] sample_agent
                 (snd (load_tree [] sample_agent)) eq_refl).
Defined.

(** The loop stops at the first entry that is not map-shaped, with the
    mutations of the entries in front of it done. *)
Lemma for_each_load_stops l : forall a,
  forallb (fun e => is_dict (snd e)) l = false ->
  exists l1 k v l2,
    l = l1 ++ (k, v) :: l2 /\
    forallb (fun e => is_dict (snd e)) l1 = true /\
    is_dict v = false /\
    for_each l load_entry a =
    (Raise AttributeError, snd (for_each l1 load_entry a)).
Proof.
  induction l as [|[k v] l IH]; intros a H; [discriminate|].
  simpl in H. destruct (is_dict v) eqn:Ev.
  - simpl in H. destruct v; try discriminate.
    destruct (node_of_entry_dict k d) as (n & Hn & _).
    destruct (IH (set_story_nodes
                    (dict_set String.eqb (story_nodes a) (str k) n) a) H)
      as (l1 & k' & v' & l2 & Hl & Hl1 & Hv & Hs).
    exists ((k, VDict d) :: l1), k', v', l2.
    rewrite !for_each_load_cons, Hn, Hs, Hl. auto.
  - exists [], k, v, l.
    rewrite for_each_load_cons, node_of_entry_other by assumption. auto.
Qed.

(** What a failed [load_tree] leaves behind: the old nodes are gone, and
    the mapping holds the nodes of the entries in front of the first one
    that is not map-shaped. *)
Lemma load_tree_malformed_nodes tree a :
  forallb (fun e => is_dict (snd e)) tree = false ->
  exists l1 k v l2,
    tree = l1 ++ (k, v) :: l2 /\
    forallb (fun e => is_dict (snd e)) l1 = true /\
    is_dict v = false /\
    story_nodes (snd (load_tree tree a)) =
    story_nodes (snd (for_each l1 load_entry (set_story_nodes [] a))).
Proof.
  intros H.
  destruct (for_each_load_stops tree (set_story_nodes [] a) H)
    as (l1 & k & v & l2 & Hl & Hl1 & Hv & Hs).
  exists l1, k, v, l2. rewrite load_tree_unfold, Hs. auto.
Qed.

(** C2, as stated, fails: after a graph was loaded, loading a definition
    with an entry that is not map-shaped raises, and the node mapping is no
    longer the one from before the call. *)
Lemma load_tree_not_atomic :
  load_tree sample_tree empty_agent = (Ok tt, sample_agent) /\
  fst (load_tree broken_tree sample_agent) = Raise AttributeError /\
  keys (story_nodes sample_agent) = ["start"; "forest_entrance"; "village_gate"] /\
  keys (story_nodes (snd (load_tree broken_tree sample_agent))) = ["cove"] /\
  story_nodes (snd (load_tree broken_tree sample_agent)) <> story_nodes sample_agent.
Proof.
  repeat split. discriminate.
Qed.

(** C2, amended.  Loading a definition with an entry that is not map-shaped
    raises [AttributeError], the exception of the missing [get] method, and
    leaves the root id as it was before the call. *)
Theorem load_tree_malformed tree a :
  (exists k v, In (k, v) tree /\ is_dict v = false) ->
  fst (load_tree tree a) = Raise AttributeError /\
  root_id (snd (load_tree tree a)) = root_id a.
Proof.
  intros (k & v & Hin & Hv).
  assert (Hf : forallb (fun e => is_dict (snd e)) tree = false).
  { destruct (forallb (fun e => is_dict (snd e)) tree) eqn:F; [|reflexivity].
    rewrite forallb_forall in F. specialize (F _ Hin). simpl in F. congruence. }
  rewrite load_tree_unfold.
  pose proof (for_each_load_result tree (set_story_nodes [] a)) as Hr.
  pose proof (for_each_load_root tree (set_story_nodes [] a)) as Hroot.
  rewrite Hf in Hr.
  destruct (for_each tree load_entry (set_story_nodes [] a)) as [[[]|e] a1];
    simpl in *; [discriminate|].
  split; assumption.
Qed.

Lemma load_tree_malformed_witness :
  fst (load_tree broken_tree sample_agent) = Raise AttributeError /\
  root_id (snd (load_tree broken_tree sample_agent)) = root_id sample_agent.
Proof.
  apply (@load_tree_malformed broken_tree sample_agent).
  exists (KStr "start"), (VStr "not a node"). simpl. auto.
Defined.

(** ** The session *)

Lemma last_item_app (A : Type) (l : list A) (x : A) :
  last_item (l ++ [x]) = Ok x.
Proof. unfold last_item. now rewrite rev_app_distr. Qed.

Lemma list_snoc (A : Type) (l : list A) :
  l <> [] -> exists l' x, l = l' ++ [x].
Proof.
  intros H. destruct (exists_last H) as (l' & x & ->). eauto.
Qed.

Lemma removelast_length (A : Type) (l : list A) :
  List.length (removelast l) = pred (List.length l).
Proof.
  induction l as [|a [|b l] IH]; try reflexivity.
  change (removelast (a :: b :: l)) with (a :: removelast (b :: l)).
  simpl List.length in *. now rewrite IH.
Qed.

(** A choice button whose target is found. *)
Lemma choice_button_found a child n s :
  get_node a child = Ok n ->
  choice_button a child s =
  (Ok tt, {| progress := progress s ++ [child];
             current_node := child;
             story_text := story_text s ++ [text n];
             achievements := achievements s;
             choices_made := choices_made s + 1 |}).
Proof.
  intros H. unfold choice_button, bind, modify, lift. simpl.
  now rewrite H.
Qed.

(** A choice button whose target lookup raises: the target is already
    appended to [progress] and made the current node. *)
Lemma choice_button_raises a child e s :
  get_node a child = Raise e ->
  choice_button a child s =
  (Raise e, {| progress := progress s ++ [child];
               current_node := child;
               story_text := story_text s;
               achievements := achievements s;
               choices_made := choices_made s |}).
Proof.
  intros H. unfold choice_button, bind, modify, lift. simpl.
  now rewrite H.
Qed.

Lemma undo_short s :
  (1 <? List.length (progress s))%nat = false ->
  undo s = (Ok (Warning nothing_to_undo), s).
Proof.
  intros H. unfold undo, bind, read. now rewrite H.
Qed.

Lemma undo_long s p x y :
  progress s = p ++ [x; y] ->
  undo s =
  (Ok (Info undid_last_choice),
   {| progress := p ++ [x];
      current_node := x;
      story_text := removelast (story_text s);
      achievements := achievements s;
      choices_made := choices_made s + -1 |}).
Proof.
  intros H. unfold undo, bind, read, modify, lift, ret.
  assert (Hl : (1 <? List.length (progress s))%nat = true).
  { apply Nat.ltb_lt. rewrite H, length_app. simpl. lia. }
  rewrite Hl. simpl. rewrite H.
  replace (p ++ [x; y]) with ((p ++ [x]) ++ [y]) by now rewrite <- app_assoc.
  rewrite removelast_last, last_item_app. reflexivity.
Qed.

Lemma two_or_more (A : Type) (l : list A) :
  1 < List.length l -> exists p x y, l = p ++ [x; y].
Proof.
  intros H.
  destruct (@list_snoc _ l) as (l1 & y & ->).
  { intros ->. simpl in H. lia. }
  rewrite length_app in H. simpl in H.
  destruct (@list_snoc _ l1) as (p & x & ->).
  { intros ->. simpl in H. lia. }
  exists p, x, y. now rewrite <- app_assoc.
Qed.

(** The undo button never raises. *)
Lemma undo_returns s : exists r s', undo s = (Ok r, s').
Proof.
  destruct (1 <? List.length (progress s))%nat eqn:E.
  - apply Nat.ltb_lt in E.
    destruct (two_or_more _ E) as (p & x & y & H).
    rewrite (@undo_long s p x y H). eauto.
  - rewrite undo_short by assumption. eauto.
Qed.

(** C3, as stated, fails: the only choice of [dangling_tree] leads to the
    missing node ["cellar"]; pressing it raises [KeyError] after the target
    was appended to the history and made the current node. *)
Lemma choose_dangling_appends :
  load_tree dangling_tree empty_agent = (Ok tt, dangling_agent) /\
  start dangling_agent = Ok dangling_session /\
  dict_get String.eqb (story_nodes dangling_agent) "cellar" = None /\
  choose dangling_agent "Open the door" dangling_session =
    Some (Raise (KeyError (VStr "cellar")),
          {| progress := [VStr "start"; VStr "cellar"];
             current_node := VStr "cellar";
             story_text := [VStr "A locked door"];
             achievements := [];
             choices_made := 0 |}) /\
  progress (snd (choice_button dangling_agent (VStr "cellar") dangling_session))
    <> progress dangling_session /\
  current_node (snd (choice_button dangling_agent (VStr "cellar") dangling_session))
    <> current_node dangling_session.
Proof.
  repeat split; discriminate.
Qed.

(** C3, amended.  For every session and every label among the choices of
    the current node whose target is not a key of the node mapping,
    pressing that choice raises the [KeyError] of [get_node] and leaves the
    visited texts, the choice count and the achievements unchanged. *)
Theorem choose_dangling a s l label target :
  choices_list a s = Ok l ->
  dict_get key_eqb l (KStr label) = Some (VStr target) ->
  dict_get String.eqb (story_nodes a) target = None ->
  exists s',
    choose a label s = Some (Raise (KeyError (VStr target)), s') /\
    story_text s' = story_text s /\
    choices_made s' = choices_made s /\
    achievements s' = achievements s.
Proof.
  intros Hl Hc Hn. unfold choose. rewrite Hl, Hc.
  rewrite (@choice_button_raises a (VStr target) (KeyError (VStr target))).
  - eexists. split; [reflexivity|]. simpl. auto.
  - simpl. now rewrite Hn.
Qed.

Lemma choose_dangling_witness :
  exists s',
    choose dangling_agent "Open the door" dangling_session =
      Some (Raise (KeyError (VStr "cellar")), s') /\
    story_text s' = story_text dangling_session /\
    choices_made s' = choices_made dangling_session /\
    achievements s' = achievements dangling_session.
Proof.
  apply (@choose_dangling dangling_agent dangling_session
           [(KStr "Open the door", VStr "cellar")] "Open the door" "cellar");
    reflexivity.
Defined.

(** A choice that returns has found its target and appended to both lists. *)
Lemma choose_returns a label s s' :
  choose a label s = Some (Ok tt, s') ->
  exists child n,
    get_node a child = Ok n /\
    s' = {| progress := progress s ++ [child];
            current_node := child;
            story_text := story_text s ++ [text n];
            achievements := achievements s;
            choices_made := choices_made s + 1 |}.
Proof.
  unfold choose.
  destruct (choices_list a s) as [l|]; [|discriminate].
  destruct (dict_get key_eqb l (KStr label)) as [child|]; [|discriminate].
  destruct (get_node a child) as [n|e] eqn:E.
  - rewrite (@choice_button_found a child n s E). intros H. injection H as <-. eauto.
  - rewrite (@choice_button_raises a child e s E). discriminate.
Qed.

(** C6.  After the session start and any sequence of choices that returned
    and of undos, [progress] and [story_text] have the same length, which
    is at least one; the last entry of [progress] is the current node; and
    [choices_made] is the length of [progress] minus one. *)
Theorem session_invariant s :
  reachable s ->
  List.length (progress s) = List.length (story_text s) /\
  1 <= List.length (progress s) /\
  last_item (progress s) = Ok (current_node s) /\
  choices_made s = (Z.of_nat (List.length (progress s)) - 1)%Z.
Proof.
  induction 1 as [a s Hs | a label s s' Hr IH Hc | s r s' Hr IH Hu].
  - unfold start, rbind in Hs.
    destruct (get_node a (value_of_root (root_id a))); [|discriminate].
    injection Hs as <-. simpl. repeat split; auto.
  - destruct IH as (Hlen & Hpos & Hlast & Hcnt).
    destruct (@choose_returns a label s s' Hc) as (child & n & _ & ->). simpl.
    rewrite !length_app, last_item_app. simpl. repeat split; lia.
  - destruct IH as (Hlen & Hpos & Hlast & Hcnt).
    destruct (1 <? List.length (progress s))%nat eqn:E.
    + apply Nat.ltb_lt in E.
      destruct (two_or_more _ E) as (p & x & y & Hp).
      rewrite (@undo_long s p x y Hp) in Hu. injection Hu as _ <-. simpl.
      rewrite Hp in *. rewrite length_app in *. simpl in *.
      rewrite last_item_app, removelast_length.
      repeat split; lia.
    + rewrite undo_short in Hu by assumption. injection Hu as _ <-. auto.
Qed.

Lemma reachable_forest_session : reachable forest_session.
Proof.
  apply (@reach_choose sample_agent "🌲 Take the forest trail - embrace the unknown"
           sample_session).
  - now apply (@reach_start sample_agent).
  - reflexivity.
Defined.

Lemma session_invariant_witness :
  List.length (progress forest_session) = List.length (story_text forest_session) /\
  1 <= List.length (progress forest_session) /\
  last_item (progress forest_session) = Ok (current_node forest_session) /\
  choices_made forest_session =
    (Z.of_nat (List.length (progress forest_session)) - 1)%Z.
Proof.
  apply (@session_invariant forest_session). exact reachable_forest_session.
Defined.

(** C7.  With exactly one entry in [progress], undo changes nothing and
    answers with the warning "Nothing to undo", which is a message and not
    an exception.  With more than one entry, undo drops exactly the last
    entry of [progress] and of [story_text], makes the new last entry the
    current node, lowers [choices_made] by one, and answers with the
    information "Undid last choice". *)
Theorem undo_boundary s :
  (List.length (progress s) = 1 ->
     undo s = (Ok (Warning nothing_to_undo), s)) /\
  (1 < List.length (progress s) ->
     exists s' x,
       undo s = (Ok (Info undid_last_choice), s') /\
       progress s = progress s' ++ [x] /\
       story_text s' = removelast (story_text s) /\
       (forall t txt, story_text s = t ++ [txt] -> story_text s' = t) /\
       choices_made s' = (choices_made s - 1)%Z /\
       achievements s' = achievements s /\
       last_item (progress s') = Ok (current_node s')).
Proof.
  split.
  - intros H. apply undo_short. now rewrite H.
  - intros H. destruct (two_or_more _ H) as (p & x & y & Hp).
    rewrite (@undo_long s p x y Hp).
    eexists. exists y. split; [reflexivity|]. simpl.
    rewrite Hp, last_item_app, <- app_assoc. simpl.
    repeat split; auto.
    intros t txt ->. apply removelast_last.
Qed.

Lemma undo_boundary_witness :
  undo sample_session = (Ok (Warning nothing_to_undo), sample_session) /\
  exists s' x,
    undo forest_session = (Ok (Info undid_last_choice), s') /\
    progress forest_session = progress s' ++ [x] /\
    story_text s' = removelast (story_text forest_session) /\
    (forall t txt, story_text forest_session = t ++ [txt] -> story_text s' = t) /\
    choices_made s' = (choices_made forest_session - 1)%Z /\
    achievements s' = achievements forest_session /\
    last_item (progress s') = Ok (current_node s').
Proof.
  split.
  - now apply (proj1 (undo_boundary sample_session)).
  - apply (proj2 (undo_boundary forest_session)). simpl. lia.
Defined.

(** The walk of the sample story: the root is ["start"], the forest choice
    leads to ["forest_entrance"] with one choice made, and undo leads back
    to the start with none. *)
Example sample_walk :
  root_id sample_agent = Some "start" /\
  start sample_agent = Ok sample_session /\
  choose sample_agent "🌲 Take the forest trail - embrace the unknown" sample_session
    = Some (Ok tt, forest_session) /\
  undo forest_session = (Ok (Info undid_last_choice), sample_session).
Proof. repeat split. Qed.

(** ** Linking choices *)

Lemma link_choice_unfold from_id label to_id a :
  link_choice from_id label to_id a =
  match get_node a (VStr from_id) with
  | Ok n =>
      match setitem (choices n) label to_id with
      | Ok c =>
          (Ok tt,
           set_story_nodes
             (dict_set String.eqb (story_nodes a) from_id (set_choices c n)) a)
      | Raise e => (Raise e, a)
      end
  | Raise e => (Raise e, a)
  end.
Proof.
  unfold link_choice, bind, read, lift, modify.
  destruct (get_node a (VStr from_id)) as [n|]; [|reflexivity].
  now destruct (setitem (choices n) label to_id).
Qed.

(** X23.  A node whose [choices] field is not a dict cannot be linked
    from: [link_choice] raises [TypeError] and leaves the graph as it is. *)
Lemma link_choice_not_a_dict a from_id label to_id n :
  dict_get String.eqb (story_nodes a) from_id = Some n ->
  is_dict (choices n) = false ->
  link_choice from_id label to_id a = (Raise TypeError, a).
Proof.
  intros Hn Hc. rewrite link_choice_unfold. simpl. rewrite Hn.
  destruct (choices n); try reflexivity; discriminate.
Qed.

Lemma dict_get_app_absent (d : dict key value) (s : string) (v : value) :
  dict_get key_eqb d (KStr s) = None ->
  dict_get key_eqb (d ++ [(KStr s, v)]) (KStr s) = Some v.
Proof.
  induction d as [|[k' v'] d IH]; simpl; intros H.
  - now rewrite String.eqb_refl.
  - destruct (key_eqb k' (KStr s)); [discriminate|auto].
Qed.

(** C9.  [link_choice] raises the [KeyError] of the failed lookup, and
    changes nothing, when [from_id] is not a key of the node mapping.  When
    [from_id] has a node with a [choices] dict it returns, whatever [to_id]
    is: the node keeps its place and its id, text, metadata, image prompt
    and mood, the other nodes and the root are untouched, and the choices
    of the node are a dict in which [label] now leads to [to_id]; a new
    label is added behind the existing ones, an existing label keeps its
    place and the entries around it. *)
Theorem link_choice_spec a from_id label to_id :
  (dict_get String.eqb (story_nodes a) from_id = None ->
     link_choice from_id label to_id a = (Raise (KeyError (VStr from_id)), a)) /\
  (forall n d,
     dict_get String.eqb (story_nodes a) from_id = Some n ->
     choices n = VDict d ->
     exists a' n' d',
       link_choice from_id label to_id a = (Ok tt, a') /\
       root_id a' = root_id a /\
       keys (story_nodes a') = keys (story_nodes a) /\
       dict_get String.eqb (story_nodes a') from_id = Some n' /\
       choices n' = VDict d' /\
       id n' = id n /\ text n' = text n /\ metadata n' = metadata n /\
       image_prompt n' = image_prompt n /\ mood n' = mood n /\
       (forall other, other <> from_id ->
          dict_get String.eqb (story_nodes a') other =
          dict_get String.eqb (story_nodes a) other) /\
       dict_get key_eqb d' (KStr label) = Some to_id /\
       (dict_get key_eqb d (KStr label) = None ->
          d' = d ++ [(KStr label, to_id)]) /\
       (forall old, dict_get key_eqb d (KStr label) = Some old ->
          exists d1 d2,
            d = d1 ++ (KStr label, old) :: d2 /\
            d' = d1 ++ (KStr label, to_id) :: d2 /\
            dict_get key_eqb d1 (KStr label) = None)).
Proof.
  split.
  - intros H. rewrite link_choice_unfold. simpl. now rewrite H.
  - intros n d Hn Hd. rewrite link_choice_unfold. simpl. rewrite Hn, Hd. simpl.
    eexists.
    exists (set_choices (VDict (dict_set key_eqb d (KStr label) to_id)) n).
    exists (dict_set key_eqb d (KStr label) to_id).
    split; [reflexivity|]. simpl.
    split; [reflexivity|].
    split; [eapply dict_set_present_keys; eassumption|].
    split; [eapply dict_set_present_get; eassumption|].
    do 6 (split; [reflexivity|]).
    split; [intros other Ho; apply (dict_get_set_other _ str_eqb_eq); congruence|].
    split.
    { destruct (dict_get key_eqb d (KStr label)) eqn:G.
      - eapply dict_set_present_get; eassumption.
      - rewrite dict_set_absent by assumption. now apply dict_get_app_absent. }
    split; [apply dict_set_absent|].
    intros old Ho.
    destruct (dict_set_present_place key_eqb d (KStr label) to_id Ho)
      as (d1 & k' & d2 & H1 & H2 & Hk & H3).
    apply key_eqb_KStr in Hk. subst k'. eauto.
Qed.

Lemma link_choice_spec_witness :
  link_choice "cellar" "Climb back" (VStr "start") dangling_agent =
    (Raise (KeyError (VStr "cellar")), dangling_agent) /\
  exists a' n' d',
    link_choice "start" "Walk away" (VStr "nowhere yet") dangling_agent = (Ok tt, a') /\
    root_id a' = root_id dangling_agent /\
    keys (story_nodes a') = keys (story_nodes dangling_agent) /\
    dict_get String.eqb (story_nodes a') "start" = Some n' /\
    choices n' = VDict d' /\
    id n' = "start" /\ text n' = VStr "A locked door" /\ metadata n' = VDict [] /\
    image_prompt n' = VStr "" /\ mood n' = VStr "neutral" /\
    (forall other, other <> "start" ->
       dict_get String.eqb (story_nodes a') other =
       dict_get String.eqb (story_nodes dangling_agent) other) /\
    dict_get key_eqb d' (KStr "Walk away") = Some (VStr "nowhere yet") /\
    (dict_get key_eqb [(KStr "Open the door", VStr "cellar")] (KStr "Walk away") = None ->
       d' = [(KStr "Open the door", VStr "cellar")]
            ++ [(KStr "Walk away", VStr "nowhere yet")]) /\
    (forall old,
       dict_get key_eqb [(KStr "Open the door", VStr "cellar")] (KStr "Walk away")
         = Some old ->
       exists d1 d2,
         [(KStr "Open the door", VStr "cellar")] = d1 ++ (KStr "Walk away", old) :: d2 /\
         d' = d1 ++ (KStr "Walk away", VStr "nowhere yet") :: d2 /\
         dict_get key_eqb d1 (KStr "Walk away") = None).
Proof.
  split.
  - now apply (proj1 (link_choice_spec dangling_agent "cellar" "Climb back"
                        (VStr "start"))).
  - now apply (proj2 (link_choice_spec dangling_agent "start" "Walk away"
                        (VStr "nowhere yet"))
                 (mkStoryNode "start" (VStr "A locked door")
                    (VDict [(KStr "Open the door", VStr "cellar")]) (VDict [])
                    (VStr "") (VStr "neutral"))
                 [(KStr "Open the door", VStr "cellar")]).
Defined.

(** ** Export and reload *)

Lemma dict_get_KStr_absent (d : dict key value) (s : string) :
  ~ In (KStr s) (keys d) -> dict_get key_eqb d (KStr s) = None.
Proof.
  intros H. pose proof (dict_mem_KStr d s) as M. unfold dict_mem in M.
  destruct (dict_get key_eqb d (KStr s)); [|reflexivity].
  exfalso. apply H, M. reflexivity.
Qed.

Lemma keys_reloaded l : keys (map reloaded l) = keys l.
Proof. unfold keys. rewrite map_map. reflexivity. Qed.

(** With distinct node ids the exported definition lists the nodes in the
    order of the node mapping. *)
Lemma export_tree_entries a :
  NoDup (keys (story_nodes a)) ->
  export_tree a = map exported (story_nodes a).
Proof.
  unfold export_tree.
  change (map exported (story_nodes a)) with ([] ++ map exported (story_nodes a)).
  assert (H0 : forall k, In k (keys (story_nodes a)) ->
                         ~ In (KStr k) (keys (@nil (key * value)))) by (simpl; tauto).
  revert H0. generalize (@nil (key * value)) as acc.
  induction (story_nodes a) as [|[k n] l IH]; intros acc Hacc Hnd; simpl.
  - now rewrite app_nil_r.
  - inversion Hnd as [|? ? Hk Hl]; subst.
    rewrite dict_set_absent.
    2:{ apply dict_get_KStr_absent, Hacc. now left. }
    rewrite IH; auto.
    + now rewrite <- app_assoc.
    + intros k' Hk' Hin. unfold keys in Hin. rewrite map_app in Hin.
      apply in_app_or in Hin. destruct Hin as [Hin|[Hin|[]]].
      * apply (Hacc k'); [now right|assumption].
      * simpl in Hin. injection Hin as ->. contradiction.
Qed.

Lemma node_of_exported k n :
  node_of_entry (KStr k) (export_entry n) = Ok (set_id k n).
Proof. reflexivity. Qed.

Lemma for_each_load_exported l : forall b,
  NoDup (keys l) ->
  (forall k, In k (keys l) -> ~ In k (keys (story_nodes b))) ->
  for_each (map exported l) load_entry b =
  (Ok tt, set_story_nodes (story_nodes b ++ map reloaded l) b).
Proof.
  induction l as [|[k n] l IH]; intros b Hnd Hb.
  - simpl. rewrite app_nil_r. now destruct b.
  - inversion Hnd as [|? ? Hk Hl]; subst.
    simpl map. unfold exported at 1. simpl fst. simpl snd.
    rewrite for_each_load_cons, node_of_exported. simpl str.
    rewrite dict_set_absent.
    2:{ apply (dict_get_None_keys _ str_eqb_eq), Hb. now left. }
    rewrite IH; auto.
    + simpl. now rewrite <- app_assoc.
    + intros k' Hk' Hin. simpl in Hin. unfold keys in Hin.
      rewrite map_app in Hin. apply in_app_or in Hin.
      destruct Hin as [Hin|[Hin|[]]].
      * apply (Hb k'); [now right|assumption].
      * simpl in Hin. subst. contradiction.
Qed.

Lemma dict_get_reloaded l k :
  dict_get String.eqb (map reloaded l) k =
  option_map (set_id k) (dict_get String.eqb l k).
Proof.
  induction l as [|[k' n] l IH]; simpl; [reflexivity|].
  destruct (String.eqb k' k) eqn:E; [|assumption].
  apply String.eqb_eq in E. now subst.
Qed.

(** Loading an exported graph returns, with the nodes in their old order
    and each filed under its key. *)
Lemma load_exported a b :
  NoDup (keys (story_nodes a)) ->
  exists a',
    load_tree (export_tree a) b = (Ok tt, a') /\
    story_nodes a' = map reloaded (story_nodes a).
Proof.
  intros Hnd.
  rewrite load_tree_unfold, export_tree_entries by assumption.
  rewrite for_each_load_exported; [|assumption|simpl; tauto].
  eexists. split; reflexivity.
Qed.

Lemma reloaded_same (l : dict string StoryNode) :
  (forall k n, In (k, n) l -> id n = k) -> map reloaded l = l.
Proof.
  intros Hid. rewrite <- (map_id l) at 2.
  apply map_ext_in. intros [k n] Hin. unfold reloaded. simpl.
  rewrite <- (Hid k n Hin). now destruct n.
Qed.

(** C1.  For every graph (a node mapping with distinct keys, as every dict
    is), loading the exported definition succeeds and gives a node mapping
    with the same node ids in the same order, in which every node has the
    text, choices, metadata, image prompt and mood it had, and so the same
    choice labels in the same order.  When the nodes carry their key as
    [id], as all nodes the agent builds do, the node mapping is the same. *)
Theorem export_load_roundtrip a b :
  NoDup (keys (story_nodes a)) ->
  exists a',
    load_tree (export_tree a) b = (Ok tt, a') /\
    keys (story_nodes a') = keys (story_nodes a) /\
    (forall k n, dict_get String.eqb (story_nodes a) k = Some n ->
       exists n',
         dict_get String.eqb (story_nodes a') k = Some n' /\
         text n' = text n /\
         choices n' = choices n /\
         metadata n' = metadata n /\
         image_prompt n' = image_prompt n /\
         mood n' = mood n /\
         choice_labels n' = choice_labels n) /\
    (forall k, dict_get String.eqb (story_nodes a) k = None ->
               dict_get String.eqb (story_nodes a') k = None) /\
    ((forall k n, In (k, n) (story_nodes a) -> id n = k) ->
     story_nodes a' = story_nodes a).
Proof.
  intros Hnd.
  destruct (@load_exported a b Hnd) as (a' & Hl & Hs).
  exists a'. split; [assumption|]. rewrite Hs.
  split; [apply keys_reloaded|].
  split; [|split].
  - intros k n Hk. exists (set_id k n).
    rewrite dict_get_reloaded, Hk. simpl. auto 10.
  - intros k Hk. now rewrite dict_get_reloaded, Hk.
  - apply reloaded_same.
Qed.

Lemma well_keyed_set d k n :
  well_keyed d -> id n = k -> well_keyed (dict_set String.eqb d k n).
Proof.
  intros [Hnd Hid] Hn. split.
  - now apply (dict_set_NoDup _ str_eqb_eq).
  - intros k' n' H. destruct (String.eqb k k') eqn:E.
    + apply String.eqb_eq in E. subst k'.
      rewrite (dict_get_set_same _ str_eqb_eq) in H. congruence.
    + apply String.eqb_neq in E.
      rewrite (dict_get_set_other _ str_eqb_eq) in H by assumption. auto.
Qed.

Lemma for_each_load_well_keyed l : forall a,
  well_keyed (story_nodes a) ->
  well_keyed (story_nodes (snd (for_each l load_entry a))).
Proof.
  induction l as [|[nid node] l IH]; intros a H; [assumption|].
  rewrite for_each_load_cons.
  destruct (node_of_entry nid node) as [n|] eqn:E; [|assumption].
  apply IH. simpl. apply well_keyed_set; [assumption|].
  destruct (node_of_entry_Ok _ _ E) as (d & ->).
  destruct (node_of_entry_dict nid d) as (n' & Hn' & Hi & _). congruence.
Qed.

Lemma held_well_keyed a : held a -> well_keyed (story_nodes a).
Proof.
  induction 1 as [|tree a H IH|nid t c ip md a H IH|f l t a H IH].
  - split; [constructor|discriminate].
  - rewrite load_tree_unfold.
    pose proof (@for_each_load_well_keyed tree (set_story_nodes [] a)) as W.
    destruct (for_each tree load_entry (set_story_nodes [] a)) as [[[]|e] a1];
      simpl in *; apply W; (split; [constructor|discriminate]).
  - simpl. now apply well_keyed_set.
  - rewrite link_choice_unfold.
    destruct (get_node a (VStr f)) as [n|] eqn:G; [|assumption].
    destruct (setitem (choices n) l t); [|assumption].
    simpl. apply well_keyed_set; [assumption|].
    simpl in G.
    destruct (dict_get String.eqb (story_nodes a) f) as [n0|] eqn:G0;
      [|discriminate].
    injection G as <-. simpl. now apply IH.
Qed.

(** For the agents the program holds, export followed by load gives back
    the node mapping itself. *)
Lemma held_roundtrip a b :
  held a ->
  exists a', load_tree (export_tree a) b = (Ok tt, a') /\
             story_nodes a' = story_nodes a.
Proof.
  intros H. destruct (held_well_keyed H) as [Hnd Hid].
  destruct (@load_exported a b Hnd) as (a' & Hl & Hs).
  exists a'. split; [assumption|]. rewrite Hs. apply reloaded_same.
  intros k n Hin. apply Hid. now apply (dict_get_NoDup_In _ str_eqb_eq).
Qed.

Lemma sample_agent_NoDup : NoDup (keys (story_nodes sample_agent)).
Proof.
  simpl. repeat constructor; simpl; intuition discriminate.
Defined.

Lemma export_load_roundtrip_witness :
  exists a',
    load_tree (export_tree sample_agent) empty_agent = (Ok tt, a') /\
    keys (story_nodes a') = keys (story_nodes sample_agent) /\
    (forall k n, dict_get String.eqb (story_nodes sample_agent) k = Some n ->
       exists n',
         dict_get String.eqb (story_nodes a') k = Some n' /\
         text n' = text n /\
         choices n' = choices n /\
         metadata n' = metadata n /\
         image_prompt n' = image_prompt n /\
         mood n' = mood n /\
         choice_labels n' = choice_labels n) /\
    (forall k, dict_get String.eqb (story_nodes sample_agent) k = None ->
               dict_get String.eqb (story_nodes a') k = None) /\
    ((forall k n, In (k, n) (story_nodes sample_agent) -> id n = k) ->
     story_nodes a' = story_nodes sample_agent).
Proof.
  apply (@export_load_roundtrip sample_agent empty_agent).
  exact sample_agent_NoDup.
Defined.

(** ** Facts about strings *)

Section StringFacts.
Local Open Scope string_scope.

Lemma sapp_assoc (a b c : string) : (a ++ b) ++ c = a ++ (b ++ c).
Proof. induction a as [|x a IH]; simpl; [reflexivity|now rewrite IH]. Qed.

Lemma sapp_nil_r (a : string) : a ++ "" = a.
Proof. induction a as [|x a IH]; simpl; [reflexivity|now rewrite IH]. Qed.

Lemma slength_app (a b : string) :
  String.length (a ++ b) = String.length a + String.length b.
Proof. induction a as [|x a IH]; simpl; [reflexivity|now rewrite IH]. Qed.

Lemma prefix_iff (a s : string) :
  prefix a s = true <-> exists q, s = a ++ q.
Proof.
  revert s. induction a as [|x a IH]; intros s.
  - destruct s; simpl; split; eauto.
  - destruct s as [|y s]; simpl.
    + split; [discriminate|]. intros (q & H). discriminate.
    + destruct (ascii_dec x y) as [->|Hne].
      * rewrite IH. split; intros (q & H); exists q; congruence.
      * split; [discriminate|]. intros (q & H). congruence.
Qed.

Lemma drop_app (a q : string) : drop (String.length a) (a ++ q) = q.
Proof.
  induction a as [|x a IH]; simpl; [now destruct q|assumption].
Qed.

(** Two ways of cutting one string: the shorter front is a front of the
    longer one. *)
Lemma sapp_eq_app (p x s1 s2 : string) :
  p ++ s1 = x ++ s2 -> String.length p <= String.length x ->
  exists u, x = p ++ u /\ s1 = u ++ s2.
Proof.
  revert x. induction p as [|c p IH]; intros x H Hl; simpl in *.
  - exists x. auto.
  - destruct x as [|d x]; simpl in *; [lia|].
    injection H as -> H.
    destruct (IH x H) as (u & -> & ->); [lia|]. eauto.
Qed.

Lemma sapp_inv_length (a b x y : string) :
  a ++ x = b ++ y -> String.length a = String.length b -> a = b /\ x = y.
Proof.
  intros H Hl.
  destruct (sapp_eq_app _ _ _ _ H) as (u & -> & ->); [lia|].
  rewrite slength_app in Hl.
  destruct u; simpl in Hl; [|lia].
  now rewrite sapp_nil_r.
Qed.

Lemma find_eq (sep s : string) :
  find sep s =
  if prefix sep s then Some ("", drop (String.length sep) s)
  else match s with
       | "" => None
       | String c s' =>
           match find sep s' with
           | Some (a, b) => Some (String c a, b)
           | None => None
           end
       end.
Proof. destruct s; reflexivity. Qed.

(** [find] returns the leftmost occurrence. *)
Lemma find_Some (sep s : string) : forall a b,
  find sep s = Some (a, b) ->
  s = a ++ sep ++ b /\
  forall p q, s = p ++ sep ++ q -> String.length a <= String.length p.
Proof.
  induction s as [|c s IH]; intros a b; rewrite find_eq.
  - destruct (prefix sep "") eqn:P; [|discriminate].
    intros H. injection H as <- <-.
    apply prefix_iff in P. destruct P as (q & Hq).
    destruct sep; [|discriminate]. simpl.
    split; [reflexivity|]. intros; lia.
  - destruct (prefix sep (String c s)) eqn:P.
    + intros H. injection H as <- <-.
      apply prefix_iff in P. destruct P as (q & Hq).
      rewrite Hq, drop_app. simpl. split; [reflexivity|]. intros; lia.
    + destruct (find sep s) as [[a' b']|] eqn:F; [|discriminate].
      intros H. injection H as <- <-.
      destruct (IH _ _ eq_refl) as (Hs & Hmin).
      split; [simpl; congruence|].
      intros p q Hp. destruct p as [|d p]; simpl in Hp.
      * assert (prefix sep (String c s) = true)
          by (apply prefix_iff; eauto).
        congruence.
      * injection Hp as _ Hp. simpl. apply Hmin in Hp. lia.
Qed.

Lemma find_None (sep s : string) :
  find sep s = None -> forall p q, s <> p ++ sep ++ q.
Proof.
  induction s as [|c s IH]; rewrite find_eq.
  - destruct (prefix sep "") eqn:P; [discriminate|].
    intros _ p q H. destruct p; [|discriminate]. simpl in H.
    assert (prefix sep "" = true) by (apply prefix_iff; eauto).
    congruence.
  - destruct (prefix sep (String c s)) eqn:P; [discriminate|].
    destruct (find sep s) as [[a' b']|] eqn:F; [discriminate|].
    intros _ p q H. destruct p as [|d p]; simpl in H.
    + assert (prefix sep (String c s) = true) by (apply prefix_iff; eauto).
      congruence.
    + injection H as _ H. now apply (IH eq_refl p q).
Qed.

Lemma contains_eq (sep s : string) :
  contains sep s =
  if prefix sep s then true
  else match s with
       | "" => false
       | String _ s' => contains sep s'
       end.
Proof. destruct s; reflexivity. Qed.

Lemma contains_find (sep s : string) :
  contains sep s = match find sep s with Some _ => true | None => false end.
Proof.
  induction s as [|c s IH]; rewrite find_eq, contains_eq.
  - now destruct (prefix sep "").
  - destruct (prefix sep (String c s)); [reflexivity|].
    rewrite IH. now destruct (find sep s) as [[? ?]|].
Qed.

(** The leftmost occurrence is unique. *)
Lemma leftmost_unique (sep s p1 q1 p2 q2 : string) :
  s = p1 ++ sep ++ q1 ->
  (forall p q, s = p ++ sep ++ q -> String.length p1 <= String.length p) ->
  s = p2 ++ sep ++ q2 ->
  (forall p q, s = p ++ sep ++ q -> String.length p2 <= String.length p) ->
  p1 = p2 /\ q1 = q2.
Proof.
  intros H1 M1 H2 M2.
  pose proof (M1 _ _ H2). pose proof (M2 _ _ H1).
  assert (E : p1 ++ sep ++ q1 = p2 ++ sep ++ q2) by congruence.
  destruct (sapp_inv_length _ _ _ _ E) as [-> E']; [lia|].
  split; [reflexivity|].
  now destruct (sapp_inv_length _ _ _ _ E' eq_refl).
Qed.
Lemma find_shorter (sep s a b : string) :
  sep <> "" -> find sep s = Some (a, b) -> String.length b < String.length s.
Proof.
  intros Hsep F. destruct (find_Some _ _ F) as (-> & _).
  rewrite !slength_app. destruct sep; [congruence|]. simpl. lia.
Qed.

(** [split_from] never runs out of fuel when started with the length of
    the string: more fuel gives the same list. *)
Lemma split_from_enough (sep : string) :
  sep <> "" ->
  forall f1 f2 s,
    String.length s <= f1 -> String.length s <= f2 ->
    split_from f1 sep s = split_from f2 sep s.
Proof.
  intros Hsep. induction f1 as [|f1 IH]; intros f2 s H1 H2.
  - destruct (find sep s) as [[a b]|] eqn:F.
    + pose proof (@find_shorter sep s a b Hsep F). lia.
    + destruct f2; simpl; now rewrite F.
  - destruct (find sep s) as [[a b]|] eqn:F.
    + pose proof (@find_shorter sep s a b Hsep F) as Hb.
      destruct f2 as [|f2]; [lia|]. simpl. rewrite F.
      f_equal. apply IH; lia.
    + destruct f2; simpl; now rewrite F.
Qed.

Lemma behind_one_shorter (ws : list string) (s s' : string) :
  Forall (fun w => w <> "") ws ->
  behind_one ws s = Some s' -> String.length s' < String.length s.
Proof.
  induction 1 as [|w ws Hw _ IH]; simpl; [discriminate|].
  destruct (prefix w s) eqn:P; [|assumption].
  intros H. injection H as <-.
  apply prefix_iff in P. destruct P as (q & ->).
  rewrite drop_app, slength_app. destruct w; [congruence|]. simpl. lia.
Qed.

(** [lstrip_from] never runs out of fuel when started with the length of
    the string: nothing is left to strip in its result. *)
Lemma lstrip_from_done (ws : list string) :
  Forall (fun w => w <> "") ws ->
  forall fuel s,
    String.length s <= fuel ->
    behind_one ws (lstrip_from fuel ws s) = None.
Proof.
  intros Hws. induction fuel as [|fuel IH]; intros s Hl; simpl.
  - destruct (behind_one ws s) as [s'|] eqn:B; [|reflexivity].
    pose proof (@behind_one_shorter ws s s' Hws B). lia.
  - destruct (behind_one ws s) as [s'|] eqn:B; [|assumption].
    apply IH. pose proof (@behind_one_shorter ws s s' Hws B). lia.
Qed.

Lemma whitespace_nonempty : Forall (fun w => w <> "") whitespace.
Proof. repeat constructor; discriminate. Qed.

Lemma lstrip_done (s : string) : behind_one whitespace (lstrip s) = None.
Proof. apply lstrip_from_done; [apply whitespace_nonempty|reflexivity]. Qed.

Lemma slength_srev (s : string) : String.length (srev s) = String.length s.
Proof.
  induction s as [|c s IH]; [reflexivity|].
  simpl. rewrite slength_app, IH. simpl. lia.
Qed.

Lemma srev_app (a b : string) : srev (a ++ b) = srev b ++ srev a.
Proof.
  induction a as [|c a IH]; simpl.
  - now rewrite sapp_nil_r.
  - now rewrite IH, sapp_assoc.
Qed.

Lemma srev_involutive (s : string) : srev (srev s) = s.
Proof.
  induction s as [|c s IH]; [reflexivity|].
  simpl. now rewrite srev_app, IH.
Qed.

(** Nothing is left to strip at the end of [rstrip s] either. *)
Lemma rstrip_done (s : string) :
  behind_one (map srev whitespace) (srev (rstrip s)) = None.
Proof.
  unfold rstrip. rewrite srev_involutive.
  apply lstrip_from_done.
  - repeat constructor; discriminate.
  - now rewrite slength_srev.
Qed.

Example strip_spaces_and_newlines :
  strip (bytes [10; 32; 32]
         ++ "Keeper of the Light" ++ bytes [32; 9; 13; 10]) = "Keeper of the Light".
Proof. reflexivity. Qed.

Example strip_no_break_space :
  strip (bytes [194; 160] ++ "Light" ++ bytes [226; 128; 137; 227; 128; 128])
  = "Light".
Proof. reflexivity. Qed.

Example strip_keeps_inner_whitespace :
  strip " True North  of the Heart* " = "True North  of the Heart*".
Proof. reflexivity. Qed.

Example split_at_every_occurrence :
  split "ab" "xxabyyabab" = Ok ["xx"; "yy"; ""; ""].
Proof. reflexivity. Qed.

Example split_empty_separator : split "" "abc" = Raise ValueError.
Proof. reflexivity. Qed.
End StringFacts.

(** ** Achievement extraction *)

Section Extraction.
Local Open Scope string_scope.

Lemma split_from_first fuel sep s :
  exists h tl, split_from fuel sep s = h :: tl /\ up_to sep s h.
Proof.
  destruct (find sep s) as [[a b]|] eqn:F.
  - destruct (find_Some _ _ F) as (Hs & Hmin).
    exists a. destruct fuel; simpl; rewrite F; eexists;
      (split; [reflexivity|right; eauto]).
  - exists s, []. split; [destruct fuel; simpl; now rewrite F|].
    left. split; [reflexivity|]. now apply find_None.
Qed.

Lemma split_from_second fuel sep s a b :
  find sep s = Some (a, b) ->
  exists h tl, split_from (S fuel) sep s = a :: h :: tl /\ up_to sep b h.
Proof.
  intros F. destruct (split_from_first fuel sep b) as (h & tl & Hh & Hu).
  exists h, tl. simpl. now rewrite F, Hh.
Qed.

(** Line 491 once the marker is found. *)
Lemma detect_achievement_found t a b :
  find marker t = Some (a, b) ->
  exists x body,
    up_to marker b x /\ up_to trophy x body /\
    detect_achievement t = Ok (Some (strip body)).
Proof.
  intros F. unfold detect_achievement.
  rewrite contains_find, F.
  destruct (find_Some _ _ F) as (Ht & _).
  destruct (String.length t) as [|fuel] eqn:L.
  { rewrite Ht, !slength_app in L. simpl in L. lia. }
  destruct (@split_from_second fuel marker t a b F) as (x & tl & Hx & Ux).
  destruct (split_from_first (String.length x) trophy x) as (body & tl' & Hb & Ub).
  exists x, body. split; [assumption|]. split; [assumption|].
  unfold split. simpl String.eqb. cbv iota. rewrite L, Hx.
  simpl rbind. rewrite Hb. reflexivity.
Qed.

(** No trophy starts in front of a marker and ends inside it. *)
Lemma trophy_not_across u q w :
  u <> "" -> String.length u < 4 -> trophy ++ q <> u ++ marker ++ w.
Proof.
  intros Hu Hl H.
  destruct u as [|c1 [|c2 [|c3 [|c4 u]]]]; simpl in Hl; try lia;
    try congruence; simpl in H; injection H; intros; discriminate.
Qed.

(** C8, as stated, fails: with a second marker in front of the trophy the
    name stops at that marker, not at the trophy. *)
Lemma detect_achievement_second_marker :
  detect_achievement "Achievement Unlocked: A Achievement Unlocked: B 🏆"
    = Ok (Some "A") /\
  between_marker_and_trophy
    "Achievement Unlocked: A Achievement Unlocked: B 🏆"
    "A Achievement Unlocked: B" /\
  ~ between_marker_and_trophy
      "Achievement Unlocked: A Achievement Unlocked: B 🏆" "A".
Proof.
  assert (Fm : find marker "Achievement Unlocked: A Achievement Unlocked: B 🏆"
               = Some ("", " A Achievement Unlocked: B 🏆")) by reflexivity.
  assert (Ft : find trophy " A Achievement Unlocked: B 🏆"
               = Some (" A Achievement Unlocked: B ", "")) by reflexivity.
  destruct (find_Some _ _ Fm) as (Hm & Mm).
  destruct (find_Some _ _ Ft) as (Htr & Mt).
  split; [reflexivity|]. split.
  - exists "", " A Achievement Unlocked: B ", "".
    repeat split; [exact Mm|exact Mt].
  - intros (pre & body & post & Ht & Mpre & Mbody & Hname).
    destruct (@leftmost_unique marker _ _ _ _ _ Ht Mpre Hm Mm) as [-> Hafter].
    assert (Mt' : forall p q, body ++ trophy ++ post = p ++ trophy ++ q ->
                  String.length " A Achievement Unlocked: B " <= String.length p).
    { intros p q H. apply (Mt p q). congruence. }
    assert (Hb : body ++ trophy ++ post
                 = " A Achievement Unlocked: B " ++ trophy ++ "")
      by (rewrite Hafter; reflexivity).
    destruct (@leftmost_unique trophy _ _ _ _ _ eq_refl Mbody Hb Mt') as [-> _].
    discriminate Hname.
Qed.
End Extraction.

Section ExtractionSpec.
Local Open Scope string_scope.

(** C8, amended.  For every text: without the marker there is no
  achievement; otherwise the name is the trimmed text between the first
  marker and whatever comes first behind it, a trophy, another marker or
  the end of the text (the name may be empty).  The text
  "... Achievement Unlocked: Keeper of the Light 🏆 ..." gives
  "Keeper of the Light" and "no marker here" gives none. *)
Theorem detect_achievement_spec t :
((forall p q, t <> p ++ marker ++ q) -> detect_achievement t = Ok None) /\
(forall pre after,
   t = pre ++ marker ++ after ->
   (forall p q, t = p ++ marker ++ q -> String.length pre <= String.length p) ->
   exists body rest,
     after = body ++ rest /\
     (rest = "" \/ prefix trophy rest = true \/ prefix marker rest = true) /\
     (forall p q, after = p ++ trophy ++ q ->
                  String.length body <= String.length p) /\
     (forall p q, after = p ++ marker ++ q ->
                  String.length body <= String.length p) /\
     detect_achievement t = Ok (Some (strip body))) /\
detect_achievement "... Achievement Unlocked: Keeper of the Light 🏆 ..."
  = Ok (Some "Keeper of the Light") /\
detect_achievement "Achievement Unlocked:  🏆" = Ok (Some "") /\
detect_achievement "no marker here" = Ok None.
Proof.
split; [|split; [|repeat split]].
- intros Hno. unfold detect_achievement. rewrite contains_find.
  destruct (find marker t) as [[a b]|] eqn:F; [|reflexivity].
  destruct (find_Some _ _ F) as (Ht & _). now apply Hno in Ht.
- intros pre after Ht Hmin.
  destruct (find marker t) as [[a b]|] eqn:F.
  2:{ exfalso. exact (@find_None marker t F pre after Ht). }
  destruct (find_Some _ _ F) as (Ha & Hamin).
  destruct (@leftmost_unique marker _ _ _ _ _ Ht Hmin Ha Hamin) as [-> ->].
  destruct (@detect_achievement_found t a b F) as (x & body & Ux & Ub & Hd).
  rewrite Hd. clear Hd F Ha Hamin Ht Hmin.
  destruct Ux as [[-> Hnm]|(t1 & Hb & Hxmin)];
    destruct Ub as [[-> Hnt]|(t2 & Hx & Hbmin)].
  + exists b, "". rewrite sapp_nil_r. repeat split; auto.
    * intros p q H. now apply Hnt in H.
    * intros p q H. now apply Hnm in H.
  + exists body, (trophy ++ t2). repeat split; auto.
    * right. left. apply prefix_iff. eauto.
    * intros p q H. now apply Hnm in H.
  + exists x, (marker ++ t1). repeat split; auto.
    * right. right. apply prefix_iff. eauto.
    * intros p q H.
      destruct (Nat.le_gt_cases (String.length x) (String.length p))
        as [Hle|Hgt]; [assumption|exfalso].
      rewrite Hb in H. symmetry in H.
      destruct (sapp_eq_app _ _ _ _ H) as (u & Hxu & Hu); [lia|].
      destruct (Nat.le_gt_cases 4 (String.length u)) as [H4|H4].
      -- symmetry in Hu.
         destruct (sapp_eq_app trophy u q (marker ++ t1)) as (w & -> & _);
           [congruence|exact H4|].
         now apply (Hnt p w).
      -- apply (@trophy_not_across u q t1); auto.
         intros ->. rewrite sapp_nil_r in Hxu. subst p. lia.
  + exists body, (trophy ++ t2 ++ marker ++ t1).
    assert (Hlen : String.length x =
                   String.length body + (4 + String.length t2)).
    { rewrite Hx, !slength_app. reflexivity. }
    repeat split.
    * rewrite Hb, Hx, !sapp_assoc. reflexivity.
    * right. left. apply prefix_iff. eauto.
    * intros p q H.
      destruct (Nat.le_gt_cases (String.length body) (String.length p))
        as [Hle|Hgt]; [assumption|exfalso].
      destruct (sapp_eq_app (p ++ trophy) x q (marker ++ t1)) as (u & Hxu & _).
      { rewrite sapp_assoc, <- H. exact Hb. }
      { rewrite slength_app. simpl. lia. }
      rewrite sapp_assoc in Hxu. apply Hbmin in Hxu. lia.
    * intros p q H. apply Hxmin in H. lia.
Qed.

Lemma detect_achievement_spec_witness :
detect_achievement "no marker here" = Ok None /\
exists body rest,
  " Keeper of the Light 🏆 ..." = body ++ rest /\
  (rest = "" \/ prefix trophy rest = true \/ prefix marker rest = true) /\
  (forall p q, " Keeper of the Light 🏆 ..." = p ++ trophy ++ q ->
               String.length body <= String.length p) /\
  (forall p q, " Keeper of the Light 🏆 ..." = p ++ marker ++ q ->
               String.length body <= String.length p) /\
  detect_achievement "... Achievement Unlocked: Keeper of the Light 🏆 ..."
    = Ok (Some (strip body)).
Proof.
split.
- apply (proj1 (detect_achievement_spec "no marker here")).
  apply find_None. reflexivity.
- apply (proj1 (proj2 (detect_achievement_spec
           "... Achievement Unlocked: Keeper of the Light 🏆 ..."))
           "... " " Keeper of the Light 🏆 ...").
  + reflexivity.
  + apply (@find_Some marker
             "... Achievement Unlocked: Keeper of the Light 🏆 ..."
             "... " " Keeper of the Light 🏆 ...").
    reflexivity.
Defined.
End ExtractionSpec.

(** ** More about loading *)

Lemma load_tree_well_keyed tree a :
  well_keyed (story_nodes (snd (load_tree tree a))).
Proof.
  rewrite load_tree_unfold.
  pose proof (@for_each_load_well_keyed tree (set_story_nodes [] a)) as W.
  destruct (for_each tree load_entry (set_story_nodes [] a)) as [[[]|e] a1];
    simpl in *; apply W; (split; [constructor|discriminate]).
Qed.

Lemma dict_get_first (d : dict string StoryNode) k n :
  dict_get String.eqb ((k, n) :: d) k = Some n.
Proof. simpl. now rewrite String.eqb_refl. Qed.

(** The loop never changes which key comes first. *)
Lemma for_each_load_first l : forall a k n d,
  story_nodes a = (k, n) :: d ->
  first_key (story_nodes (snd (for_each l load_entry a))) = Some k.
Proof.
  induction l as [|[nid node] l IH]; intros a k n d H.
  - simpl. now rewrite H.
  - rewrite for_each_load_cons.
    destruct (node_of_entry nid node) as [n0|]; [|simpl; now rewrite H].
    simpl in *. rewrite H. simpl.
    destruct (String.eqb k (str nid)); eapply IH; reflexivity.
Qed.

(** The loop looks at the node mapping only. *)
Lemma for_each_load_nodes_only l : forall a b,
  story_nodes a = story_nodes b ->
  fst (for_each l load_entry a) = fst (for_each l load_entry b) /\
  story_nodes (snd (for_each l load_entry a)) =
  story_nodes (snd (for_each l load_entry b)).
Proof.
  induction l as [|[nid node] l IH]; intros a b H; [now split|].
  rewrite !for_each_load_cons.
  destruct (node_of_entry nid node); [|now split].
  apply IH. simpl. now rewrite H.
Qed.

(** The loop files one node per entry, in order, as long as the string
    forms of the keys do not repeat. *)
Lemma for_each_load_keys l : forall a a',
  for_each l load_entry a = (Ok tt, a') ->
  NoDup (keys (story_nodes a) ++ map str (keys l)) ->
  keys (story_nodes a') = keys (story_nodes a) ++ map str (keys l).
Proof.
  induction l as [|[nid node] l IH]; intros a a' H Hnd.
  - simpl in *. injection H as <-. now rewrite app_nil_r.
  - rewrite for_each_load_cons in H.
    destruct (node_of_entry nid node) as [n|]; [|discriminate].
    simpl in Hnd.
    assert (Hfresh : dict_get String.eqb (story_nodes a) (str nid) = None).
    { apply (dict_get_None_keys _ str_eqb_eq).
      intros Hin. apply NoDup_remove_2 in Hnd. apply Hnd.
      apply in_or_app. now left. }
    apply IH in H.
    + rewrite H. simpl. rewrite dict_set_absent by assumption.
      unfold keys. rewrite map_app. simpl. now rewrite <- app_assoc.
    + simpl. rewrite dict_set_absent by assumption.
      unfold keys in *. rewrite map_app. simpl. now rewrite <- app_assoc.
Qed.

(** The root of a loaded definition that is not empty is a key of the node
    mapping. *)
Lemma load_tree_root_found tree a a' :
  load_tree tree a = (Ok tt, a') ->
  tree <> [] ->
  exists r n,
    root_id a' = Some r /\ id n = r /\
    dict_get String.eqb (story_nodes a') r = Some n.
Proof.
  intros H Hne.
  pose proof (load_tree_well_keyed tree a) as [_ Hid].
  rewrite H in Hid. simpl in Hid.
  rewrite load_tree_unfold in H.
  destruct (for_each tree load_entry (set_story_nodes [] a)) as [[[]|e] a1] eqn:E;
    [|discriminate].
  injection H as <-. simpl in *. unfold root_of.
  assert (Hr : exists r, (if dict_mem key_eqb tree (KStr "start")
                          then Some "start"
                          else match story_nodes a1 with
                               | [] => None
                               | _ => first_key (story_nodes a1)
                               end) = Some r /\
                         In r (keys (story_nodes a1))).
  { destruct (dict_mem key_eqb tree (KStr "start")) eqn:Es.
    - exists "start". split; [reflexivity|].
      apply dict_mem_KStr in Es. unfold keys in Es.
      apply in_map_iff in Es. destruct Es as ([k v] & Hk & Hin).
      simpl in Hk. subst k.
      exact (for_each_load_all _ _ E _ _ Hin).
    - destruct tree as [|[k v] tree]; [congruence|].
      pose proof (for_each_load_all _ _ E k v (or_introl eq_refl)) as Hk.
      destruct (story_nodes a1) as [|[r n] d]; [contradiction|].
      exists r. simpl. auto. }
  destruct Hr as (r & -> & Hin).
  destruct (dict_get String.eqb (story_nodes a1) r) as [n|] eqn:G.
  - exists r, n. auto.
  - apply (dict_get_None_keys _ str_eqb_eq) in G. contradiction.
Qed.

(** X1.  After a definition was loaded, [get_root] raises [RuntimeError]
    exactly when the definition was empty; otherwise it returns the node
    filed under the root id, and that node carries the root id. *)
Theorem get_root_after_load tree a a' :
  load_tree tree a = (Ok tt, a') ->
  (tree = [] ->
     get_root a' = RuntimeError "No root node set in story tree.") /\
  (tree <> [] ->
     exists r n,
       root_id a' = Some r /\ get_root a' = Root n /\ id n = r /\
       dict_get String.eqb (story_nodes a') r = Some n).
Proof.
  intros H. split.
  - intros ->. rewrite load_tree_unfold in H. simpl in H.
    injection H as <-. reflexivity.
  - intros Hne.
    destruct (@load_tree_root_found tree a a' H Hne) as (r & n & Hr & Hi & Hn).
    exists r, n. unfold get_root. simpl. rewrite Hr, Hn. auto.
Qed.

Lemma get_root_after_load_witness :
  get_root (snd (load_tree [] sample_agent))
    = RuntimeError "No root node set in story tree." /\
  exists r n,
    root_id sample_agent = Some r /\ get_root sample_agent = Root n /\ id n = r /\
    dict_get String.eqb (story_nodes sample_agent) r = Some n.
Proof.
  split.
  - now apply (proj1 (@get_root_after_load [] sample_agent
                        (snd (load_tree [] sample_agent)) eq_refl)).
  - apply (proj2 (@get_root_after_load sample_tree empty_agent sample_agent
                    eq_refl)).
    discriminate.
Defined.

(** X2.  A successful load replaces the whole agent: the result does not
    depend on the agent it is run on; and when it fails, the error and the
    node mapping left behind do not depend on it either. *)
Theorem load_tree_forgets tree a b :
  fst (load_tree tree a) = fst (load_tree tree b) /\
  story_nodes (snd (load_tree tree a)) = story_nodes (snd (load_tree tree b)) /\
  (fst (load_tree tree a) = Ok tt ->
   snd (load_tree tree a) = snd (load_tree tree b)).
Proof.
  rewrite !load_tree_unfold.
  destruct (@for_each_load_nodes_only tree (set_story_nodes [] a)
              (set_story_nodes [] b) eq_refl) as [Hr Hn].
  destruct (for_each tree load_entry (set_story_nodes [] a)) as [[[]|e] a1];
    destruct (for_each tree load_entry (set_story_nodes [] b)) as [[[]|e'] b1];
    simpl in *; try discriminate.
  - repeat split; [assumption|].
    intros _. unfold set_root_id. now rewrite Hn.
  - repeat split; [assumption|assumption|discriminate].
Qed.

(** X3.  When the string forms of the keys of an accepted definition are
    pairwise different, the node mapping lists one node per entry in the
    order of the definition. *)
Theorem load_tree_order tree a a' :
  load_tree tree a = (Ok tt, a') ->
  NoDup (map str (keys tree)) ->
  keys (story_nodes a') = map str (keys tree).
Proof.
  rewrite load_tree_unfold.
  destruct (for_each tree load_entry (set_story_nodes [] a)) as [[[]|e] a1] eqn:E;
    [|discriminate].
  intros H Hnd. injection H as <-. simpl.
  now apply (for_each_load_keys _ _ E).
Qed.

Lemma load_tree_order_witness :
  keys (story_nodes (snd (load_tree numbered_tree sample_agent))) = ["7"; "-3"].
Proof.
  apply (@load_tree_order numbered_tree sample_agent
           (snd (load_tree numbered_tree sample_agent)) eq_refl).
  simpl. repeat constructor; simpl; intuition discriminate.
Defined.

(** X4.  Without a key ["start"], the root of an accepted definition is the
    string form of its first key. *)
Theorem load_tree_fallback_root k v tree a a' :
  load_tree ((k, v) :: tree) a = (Ok tt, a') ->
  ~ In (KStr "start") (keys ((k, v) :: tree)) ->
  root_id a' = Some (str k).
Proof.
  rewrite load_tree_unfold.
  destruct (for_each ((k, v) :: tree) load_entry (set_story_nodes [] a))
    as [[[]|e] a1] eqn:E; [|discriminate].
  intros H Hns. injection H as <-. simpl root_id. unfold root_of.
  destruct (dict_mem key_eqb ((k, v) :: tree) (KStr "start")) eqn:Es.
  { apply dict_mem_KStr in Es. contradiction. }
  rewrite for_each_load_cons in E.
  destruct (node_of_entry k v) as [n|] eqn:En; [|discriminate].
  pose proof (@for_each_load_first tree
                (set_story_nodes
                   (dict_set String.eqb (story_nodes (set_story_nodes [] a)) (str k) n)
                   (set_story_nodes [] a)) (str k) n [] eq_refl) as F.
  rewrite E in F. simpl in F.
  destruct (story_nodes a1); [discriminate|assumption].
Qed.

Lemma load_tree_fallback_root_witness :
  root_id (snd (load_tree numbered_tree sample_agent)) = Some "7".
Proof.
  apply (@load_tree_fallback_root (KInt 7) (VDict [(KStr "text", VStr "seven")])
           [(KInt (-3), VDict [])] sample_agent
           (snd (load_tree numbered_tree sample_agent)) eq_refl).
  simpl. intros [H|[H|[]]]; discriminate.
Defined.

(** Only the key ["start"] has the string form ["start"]. *)
Lemma str_start k : str k = "start" -> k = KStr "start".
Proof.
  destruct k as [|[|]|z|s]; simpl; try discriminate; [|congruence].
  destruct z as [|p|p]; simpl; try discriminate;
    destruct (Pos.to_uint p); simpl; discriminate.
Qed.

Lemma dict_mem_exported (d : dict string StoryNode) (s : string) :
  dict_mem key_eqb (map exported d) (KStr s) = dict_mem String.eqb d s.
Proof.
  unfold dict_mem.
  induction d as [|[k n] d IH]; [reflexivity|].
  simpl. destruct (String.eqb k s); [reflexivity|assumption].
Qed.

(** X5.  Exporting a graph that was just loaded and loading the export
    gives back the same agent, root included, whatever agent it is loaded
    into. *)
Theorem reload_is_identity tree a a' b :
  load_tree tree a = (Ok tt, a') ->
  load_tree (export_tree a') b = (Ok tt, a').
Proof.
  intros H.
  pose proof (load_tree_well_keyed tree a) as [Hnd Hid].
  rewrite H in Hnd, Hid. simpl in Hnd, Hid.
  rewrite (load_tree_unfold (export_tree a')).
  rewrite export_tree_entries by assumption.
  rewrite for_each_load_exported; [|assumption|simpl; tauto].
  simpl. rewrite reloaded_same.
  2:{ intros k n Hin. apply Hid. now apply (dict_get_NoDup_In _ str_eqb_eq). }
  f_equal.
  rewrite load_tree_unfold in H.
  destruct (for_each tree load_entry (set_story_nodes [] a)) as [[[]|e] a1] eqn:E;
    [|discriminate].
  injection H as <-. simpl. unfold set_root_id, set_story_nodes. simpl.
  f_equal. unfold root_of. rewrite dict_mem_exported.
  destruct (dict_mem key_eqb tree (KStr "start")) eqn:Es.
  - apply dict_mem_KStr in Es. unfold keys in Es.
    apply in_map_iff in Es. destruct Es as ([k v] & Hk & Hin).
    simpl in Hk. subst k.
    pose proof (for_each_load_all _ _ E _ _ Hin) as Hs.
    apply (dict_mem_keys _ str_eqb_eq) in Hs. simpl in Hs. now rewrite Hs.
  - destruct (dict_mem String.eqb (story_nodes a1) "start") eqn:Em;
      [|reflexivity].
    exfalso. unfold dict_mem in Em.
    destruct (dict_get String.eqb (story_nodes a1) "start") as [n|] eqn:G;
      [|discriminate].
    replace a1 with (snd (for_each tree load_entry (set_story_nodes [] a))) in G
      by now rewrite E.
    apply for_each_load_origin in G.
    destruct G as [G|(k & d & Hin & Hk & _)]; [discriminate|].
    apply str_start in Hk. subst k.
    assert (In (KStr "start") (keys tree))
      by (unfold keys; apply in_map_iff; exists (KStr "start", VDict d); auto).
    apply dict_mem_KStr in H. congruence.
Qed.

Lemma reload_is_identity_witness :
  load_tree (export_tree sample_agent) dangling_agent = (Ok tt, sample_agent).
Proof.
  exact (@reload_is_identity sample_tree empty_agent sample_agent dangling_agent
           eq_refl).
Defined.

(** X6.  [add_node] returns the identifier it was given and files a node
    with that id, the given text, image prompt and mood, empty metadata and
    the given choices (an empty dict when they are falsy).  It leaves the
    root and every other node alone; a new identifier is filed behind the
    existing nodes, a used one overwrites the node in its place. *)
Theorem add_node_lookup nid t c ip md a :
  exists a',
    add_node nid t c ip md a = (Ok nid, a') /\
    root_id a' = root_id a /\
    get_node a' (VStr nid) =
      Ok (mkStoryNode nid t (if truthy c then c else VDict []) (VDict []) ip md) /\
    (forall other, other <> nid ->
       get_node a' (VStr other) = get_node a (VStr other)) /\
    (dict_get String.eqb (story_nodes a) nid = None ->
       keys (story_nodes a') = keys (story_nodes a) ++ [nid]) /\
    (forall old, dict_get String.eqb (story_nodes a) nid = Some old ->
       keys (story_nodes a') = keys (story_nodes a)).
Proof.
  eexists. split; [reflexivity|]. simpl.
  split; [reflexivity|].
  split; [now rewrite (dict_get_set_same _ str_eqb_eq)|].
  split.
  { intros other Ho. rewrite (dict_get_set_other _ str_eqb_eq); congruence. }
  split.
  - intros Hn. rewrite dict_set_absent by assumption.
    unfold keys. now rewrite map_app.
  - intros old Ho. eapply dict_set_present_keys. eassumption.
Qed.

(** X7.  In every agent the program can hold, the node ids are pairwise
    different and every node carries the key it is filed under as [id]. *)
Theorem held_keys_and_ids a :
  held a ->
  NoDup (keys (story_nodes a)) /\
  (forall k n, In (k, n) (story_nodes a) -> id n = k) /\
  (forall k n, get_node a (VStr k) = Ok n -> id n = k).
Proof.
  intros H. destruct (held_well_keyed H) as [Hnd Hid].
  split; [assumption|]. split.
  - intros k n Hin. apply Hid. now apply (dict_get_NoDup_In _ str_eqb_eq).
  - intros k n Hg. simpl in Hg.
    destruct (dict_get String.eqb (story_nodes a) k) as [n'|] eqn:G;
      [|discriminate].
    injection Hg as <-. now apply Hid.
Qed.

Lemma held_sample_agent : held sample_agent.
Proof. exact (held_load sample_tree held_new). Defined.

Lemma held_keys_and_ids_witness :
  NoDup (keys (story_nodes sample_agent)) /\
  (forall k n, In (k, n) (story_nodes sample_agent) -> id n = k) /\
  (forall k n, get_node sample_agent (VStr k) = Ok n -> id n = k).
Proof.
  apply (@held_keys_and_ids sample_agent). exact held_sample_agent.
Defined.

(** ** More about the session *)

Lemma last_item_inv (A : Type) (l : list A) (x : A) :
  last_item l = Ok x -> exists p, l = p ++ [x].
Proof.
  intros H. destruct l as [|a l]; [discriminate|].
  destruct (@list_snoc _ (a :: l)) as (p & y & Hp); [discriminate|].
  rewrite Hp in *. rewrite last_item_app in H. injection H as ->. eauto.
Qed.

Lemma border_color_hashable m :
  hashable m = true -> exists c, border_color m = Ok c.
Proof.
  destruct m as [| | |x|l|d]; intros H; try discriminate H;
    try (eexists; reflexivity).
  unfold border_color.
  destruct (dict_get String.eqb mood_colors x); eauto.
Qed.

(** The choices the page offers for a current node that is in the graph
    with a mood that can be hashed and a choices dict that is not empty. *)
Lemma choices_list_offered a s f n e d :
  current_node s = VStr f ->
  dict_get String.eqb (story_nodes a) f = Some n ->
  hashable (mood n) = true ->
  choices n = VDict (e :: d) ->
  choices_list a s = Ok (e :: d).
Proof.
  intros Hc Hn Hm Hd. unfold choices_list. rewrite Hc.
  cbn [get_node]. rewrite Hn. cbn [rbind].
  destruct (border_color_hashable _ Hm) as (c & ->). cbn [rbind].
  rewrite Hd. reflexivity.
Qed.

(** X8.  A choice that was just linked from the current node is on the
    page at once, when the mood of that node can be hashed: its button
    exists, also when the node was an ending before, and pressing it runs
    the choice handler on the linked target. *)
Theorem link_then_choose a a' s f n d label to_id :
  current_node s = VStr f ->
  dict_get String.eqb (story_nodes a) f = Some n ->
  choices n = VDict d ->
  hashable (mood n) = true ->
  link_choice f label to_id a = (Ok tt, a') ->
  exists l,
    choices_list a' s = Ok l /\
    l <> [] /\
    dict_get key_eqb l (KStr label) = Some to_id /\
    choose a' label s = Some (choice_button a' to_id s).
Proof.
  intros Hc Hn Hd Hm Hl.
  rewrite link_choice_unfold in Hl. simpl in Hl. rewrite Hn, Hd in Hl.
  simpl in Hl. injection Hl as <-.
  assert (Hget : dict_get key_eqb (dict_set key_eqb d (KStr label) to_id)
                   (KStr label) = Some to_id).
  { destruct (dict_get key_eqb d (KStr label)) eqn:G.
    - eapply dict_set_present_get; eassumption.
    - rewrite dict_set_absent by assumption. now apply dict_get_app_absent. }
  destruct (dict_set key_eqb d (KStr label) to_id) as [|e d'] eqn:Ed;
    [discriminate|].
  exists (e :: d').
  assert (Hl : choices_list
                 (set_story_nodes
                    (dict_set String.eqb (story_nodes a) f
                       (set_choices (VDict (e :: d')) n))
                    a) s = Ok (e :: d')).
  { apply (@choices_list_offered _ s f (set_choices (VDict (e :: d')) n) e d');
      try assumption; try reflexivity.
    cbn [story_nodes set_story_nodes]. apply (dict_get_set_same _ str_eqb_eq). }
  split; [assumption|]. split; [discriminate|]. split; [assumption|].
  unfold choose. now rewrite Hl, Hget.
Qed.

Lemma link_then_choose_witness :
  exists l,
    choices_list (snd (link_choice "start" "Walk away" (VStr "start") dangling_agent))
      dangling_session = Ok l /\
    l <> [] /\
    dict_get key_eqb l (KStr "Walk away") = Some (VStr "start") /\
    choose (snd (link_choice "start" "Walk away" (VStr "start") dangling_agent))
      "Walk away" dangling_session =
    Some (choice_button
            (snd (link_choice "start" "Walk away" (VStr "start") dangling_agent))
            (VStr "start") dangling_session).
Proof.
  apply (@link_then_choose dangling_agent
           (snd (link_choice "start" "Walk away" (VStr "start") dangling_agent))
           dangling_session "start"
           (mkStoryNode "start" (VStr "A locked door")
              (VDict [(KStr "Open the door", VStr "cellar")]) (VDict [])
              (VStr "") (VStr "neutral"))
           [(KStr "Open the door", VStr "cellar")] "Walk away" (VStr "start"));
    reflexivity.
Defined.

(** X9.  Undo takes back a choice: from a session whose current node is
    the last entry of its history, a choice that returned followed by undo
    gives the very same session again. *)
Theorem choose_then_undo a label s s' :
  last_item (progress s) = Ok (current_node s) ->
  choose a label s = Some (Ok tt, s') ->
  undo s' = (Ok (Info undid_last_choice), s).
Proof.
  intros Hlast Hc.
  destruct (@choose_returns a label s s' Hc) as (child & n & _ & ->).
  destruct (last_item_inv _ Hlast) as (p & Hp).
  rewrite (@undo_long _ p (current_node s) child).
  2:{ simpl. rewrite Hp, <- app_assoc. reflexivity. }
  simpl. rewrite removelast_last, <- Hp.
  destruct s as [pr cur st ach cm]. simpl. do 2 f_equal. lia.
Qed.

Lemma choose_then_undo_witness :
  undo forest_session = (Ok (Info undid_last_choice), sample_session).
Proof.
  apply (@choose_then_undo sample_agent
           "🌲 Take the forest trail - embrace the unknown"
           sample_session forest_session); reflexivity.
Defined.

(** X10.  Undo does not take back a choice that failed.  After a choice
    whose target is missing, the page can no longer show the current node,
    and undo leads back to the node before but also drops the text of
    that node and lowers the choice count below what it was. *)
Theorem undo_after_dangling a s l label target p x :
  progress s = p ++ [x] ->
  choices_list a s = Ok l ->
  dict_get key_eqb l (KStr label) = Some (VStr target) ->
  dict_get String.eqb (story_nodes a) target = None ->
  exists s1,
    choose a label s = Some (Raise (KeyError (VStr target)), s1) /\
    progress s1 = progress s ++ [VStr target] /\
    current_node s1 = VStr target /\
    choices_list a s1 = Raise (KeyError (VStr target)) /\
    undo s1 =
      (Ok (Info undid_last_choice),
       {| progress := progress s;
          current_node := x;
          story_text := removelast (story_text s);
          achievements := achievements s;
          choices_made := choices_made s - 1 |}).
Proof.
  intros Hp Hl Hc Hn.
  assert (Hg : get_node a (VStr target) = Raise (KeyError (VStr target)))
    by (simpl; now rewrite Hn).
  unfold choose. rewrite Hl, Hc.
  rewrite (@choice_button_raises a (VStr target) (KeyError (VStr target)) s Hg).
  eexists. split; [reflexivity|]. simpl.
  repeat split.
  - unfold choices_list. simpl. now rewrite Hn.
  - rewrite (@undo_long _ p x (VStr target)).
    + simpl. now rewrite Hp.
    + simpl. rewrite Hp, <- app_assoc. reflexivity.
Qed.

Lemma undo_after_dangling_witness :
  exists s1,
    choose dangling_agent "Open the door" dangling_session
      = Some (Raise (KeyError (VStr "cellar")), s1) /\
    progress s1 = progress dangling_session ++ [VStr "cellar"] /\
    current_node s1 = VStr "cellar" /\
    choices_list dangling_agent s1 = Raise (KeyError (VStr "cellar")) /\
    undo s1 =
      (Ok (Info undid_last_choice),
       {| progress := progress dangling_session;
          current_node := VStr "start";
          story_text := removelast (story_text dangling_session);
          achievements := achievements dangling_session;
          choices_made := choices_made dangling_session - 1 |}).
Proof.
  apply (@undo_after_dangling dangling_agent dangling_session
           [(KStr "Open the door", VStr "cellar")] "Open the door" "cellar"
           [] (VStr "start")); reflexivity.
Defined.

(** X11.  The undo button never raises, whatever the session looks like,
    never empties a history that has an entry, never makes it longer, and
    never touches the achievements. *)
Theorem undo_safe s :
  exists r s',
    undo s = (Ok r, s') /\
    (progress s <> [] -> progress s' <> []) /\
    List.length (progress s') <= List.length (progress s) /\
    achievements s' = achievements s.
Proof.
  destruct (1 <? List.length (progress s))%nat eqn:E.
  - apply Nat.ltb_lt in E.
    destruct (two_or_more _ E) as (p & x & y & Hp).
    rewrite (@undo_long s p x y Hp). do 2 eexists.
    split; [reflexivity|]. simpl. repeat split.
    + intros _ H. now destruct p.
    + rewrite Hp, !length_app. simpl. lia.
  - rewrite undo_short by assumption. do 2 eexists.
    split; [reflexivity|]. auto.
Qed.

(** ** Restart and import *)

Lemma to_root_unfold a s :
  to_root a s =
  match get_node a (value_of_root (root_id a)) with
  | Ok n =>
      (Ok tt, {| progress := [value_of_root (root_id a)];
                 current_node := value_of_root (root_id a);
                 story_text := [text n];
                 achievements := achievements s;
                 choices_made := choices_made s |})
  | Raise e =>
      (Raise e, {| progress := [value_of_root (root_id a)];
                   current_node := value_of_root (root_id a);
                   story_text := story_text s;
                   achievements := achievements s;
                   choices_made := choices_made s |})
  end.
Proof.
  unfold to_root, bind, modify, lift. simpl.
  now destruct (get_node a (value_of_root (root_id a))).
Qed.

(** X12.  Restart leads from any session to the session a first run starts
    with, achievements and count included.  When the root cannot be
    looked up it raises, and then the history and the current node are
    already reset while texts, achievements and count are the old ones. *)
Theorem restart_is_start a s :
  (forall s0, start a = Ok s0 ->
     restart a s = (Ok (Success "✨ Story restarted!"), s0)) /\
  (forall e, start a = Raise e ->
     restart a s =
     (Raise e, {| progress := [value_of_root (root_id a)];
                  current_node := value_of_root (root_id a);
                  story_text := story_text s;
                  achievements := achievements s;
                  choices_made := choices_made s |})).
Proof.
  unfold restart, start, bind. rewrite to_root_unfold.
  destruct (get_node a (value_of_root (root_id a))) as [n|e0]; simpl; split;
    intros x Hx; try discriminate; injection Hx as <-; reflexivity.
Qed.

Lemma restart_is_start_witness :
  restart sample_agent forest_session
    = (Ok (Success "✨ Story restarted!"), sample_session) /\
  restart (snd (load_tree broken_tree sample_agent)) forest_session =
    (Raise (KeyError (VStr "start")),
     {| progress := [VStr "start"];
        current_node := VStr "start";
        story_text := story_text forest_session;
        achievements := achievements forest_session;
        choices_made := choices_made forest_session |}).
Proof.
  split.
  - now apply (proj1 (restart_is_start sample_agent forest_session)).
  - now apply (proj2 (restart_is_start (snd (load_tree broken_tree sample_agent))
                        forest_session)).
Defined.

Lemma import_story_unfold data p :
  import_story data p =
  match load_data data (agent p) with
  | (Ok _, a1) =>
      match to_root a1 (state p) with
      | (Ok _, s1) =>
          (Ok (Success "📚 Story tree imported successfully!"),
           mkPage a1 (set_achievements [] s1))
      | (Raise e, s1) => (Ok (Failed e), mkPage a1 s1)
      end
  | (Raise e, a1) => (Ok (Failed e), mkPage a1 (state p))
  end.
Proof.
  unfold import_story, try_except, bind, on_agent, on_session, read, ret, modify.
  destruct (load_data data (agent p)) as [[[]|e] a1]; simpl; [|reflexivity].
  destruct (to_root a1 (state p)) as [[[]|e] s1]; reflexivity.
Qed.

Lemma load_tree_result tree a :
  fst (load_tree tree a) =
  if forallb (fun e => is_dict (snd e)) tree then Ok tt else Raise AttributeError.
Proof.
  rewrite load_tree_unfold.
  pose proof (for_each_load_result tree (set_story_nodes [] a)) as H.
  destruct (for_each tree load_entry (set_story_nodes [] a)) as [[[]|e] a1];
    simpl in *; assumption.
Qed.

(** X13.  An import never raises: it answers with success or with the
    exception it caught.  It succeeds exactly for a dict that is not empty
    and whose entries are all dicts. *)
Theorem import_outcome data p :
  exists fb p',
    import_story data p = (Ok fb, p') /\
    ((exists msg, fb = Success msg) <->
     (exists d, data = VDict d /\ d <> [] /\
                forallb (fun e => is_dict (snd e)) d = true)).
Proof.
  rewrite import_story_unfold.
  destruct data as [| | | |l|d];
    try (simpl; do 2 eexists; split; [reflexivity|];
         split; [intros (m & H); discriminate
                |intros (d & H & _); discriminate]).
  simpl load_data.
  pose proof (load_tree_result d (agent p)) as Hr.
  destruct (load_tree d (agent p)) as [[[]|e] a1] eqn:L; simpl in Hr.
  - destruct (forallb (fun e => is_dict (snd e)) d) eqn:F; [|discriminate].
    rewrite to_root_unfold.
    destruct d as [|e0 d].
    + rewrite load_tree_unfold in L. simpl in L. injection L as <-. simpl.
      do 2 eexists. split; [reflexivity|].
      split; [intros (m & H); discriminate|].
      intros (d & H & Hne & _). injection H as <-. congruence.
    + destruct (@load_tree_root_found (e0 :: d) (agent p) a1 L)
        as (r & n & Hroot & _ & Hn); [discriminate|].
      rewrite Hroot. simpl. rewrite Hn.
      do 2 eexists. split; [reflexivity|].
      split; [|eauto]. intros _. exists (e0 :: d). repeat split; auto.
      discriminate.
  - do 2 eexists. split; [reflexivity|].
    split; [intros (m & H); discriminate|].
    intros (d' & H & _ & F). injection H as <-.
    rewrite F in Hr. discriminate.
Qed.

(** X14.  A successful import replaces the graph and puts the session at
    the new root with no achievements, but keeps the count of choices made
    that the session had before. *)
Theorem import_success d p :
  d <> [] ->
  forallb (fun e => is_dict (snd e)) d = true ->
  exists a' r n,
    load_tree d (agent p) = (Ok tt, a') /\
    root_id a' = Some r /\
    get_node a' (VStr r) = Ok n /\
    import_story (VDict d) p =
      (Ok (Success "📚 Story tree imported successfully!"),
       mkPage a'
         {| progress := [VStr r];
            current_node := VStr r;
            story_text := [text n];
            achievements := [];
            choices_made := choices_made (state p) |}).
Proof.
  intros Hne F.
  pose proof (load_tree_result d (agent p)) as Hr. rewrite F in Hr.
  destruct (load_tree d (agent p)) as [[[]|e] a1] eqn:L; simpl in Hr;
    [|discriminate].
  destruct (@load_tree_root_found d (agent p) a1 L Hne)
    as (r & n & Hroot & _ & Hn).
  exists a1, r, n. split; [reflexivity|]. split; [assumption|].
  split; [simpl; now rewrite Hn|].
  rewrite import_story_unfold. simpl load_data. rewrite L.
  rewrite to_root_unfold, Hroot. simpl. now rewrite Hn.
Qed.

Lemma import_success_witness :
  exists a' r n,
    load_tree sample_tree (agent (mkPage dangling_agent forest_session))
      = (Ok tt, a') /\
    root_id a' = Some r /\
    get_node a' (VStr r) = Ok n /\
    import_story (VDict sample_tree) (mkPage dangling_agent forest_session) =
      (Ok (Success "📚 Story tree imported successfully!"),
       mkPage a'
         {| progress := [VStr r];
            current_node := VStr r;
            story_text := [text n];
            achievements := [];
            choices_made := choices_made (state (mkPage dangling_agent forest_session)) |}).
Proof.
  apply (@import_success sample_tree (mkPage dangling_agent forest_session)).
  - discriminate.
  - reflexivity.
Defined.

(** X15.  What a failed import leaves behind.  For data that is not a dict
    the graph is emptied, with the old root id kept.  For a dict with an
    entry that is not map-shaped the graph holds the nodes of the entries
    in front of that entry, with the old root id kept.  In both cases the
    session is untouched.  For the empty dict the graph is empty without a
    root, and the history and the current node of the session are [None]
    while its texts, achievements and count are the old ones. *)
Theorem import_failure p :
  (forall data, is_dict data = false ->
     import_story data p =
     (Ok (Failed AttributeError),
      mkPage (set_story_nodes [] (agent p)) (state p))) /\
  (forall d, forallb (fun e => is_dict (snd e)) d = false ->
     exists l1 k v l2 a1,
       d = l1 ++ (k, v) :: l2 /\
       forallb (fun e => is_dict (snd e)) l1 = true /\
       is_dict v = false /\
       import_story (VDict d) p = (Ok (Failed AttributeError), mkPage a1 (state p)) /\
       root_id a1 = root_id (agent p) /\
       story_nodes a1 =
       story_nodes (snd (for_each l1 load_entry (set_story_nodes [] (agent p))))) /\
  import_story (VDict []) p =
    (Ok (Failed (KeyError VNone)),
     mkPage {| story_nodes := []; root_id := None |}
       {| progress := [VNone];
          current_node := VNone;
          story_text := story_text (state p);
          achievements := achievements (state p);
          choices_made := choices_made (state p) |}).
Proof.
  split; [|split].
  - intros data H. rewrite import_story_unfold.
    destruct data; try discriminate; reflexivity.
  - intros d F.
    destruct (for_each_load_stops d (set_story_nodes [] (agent p)) F)
      as (l1 & k & v & l2 & Hd & Hl1 & Hv & Hs).
    exists l1, k, v, l2. eexists.
    split; [assumption|]. split; [assumption|]. split; [assumption|].
    rewrite import_story_unfold. simpl load_data.
    rewrite load_tree_unfold, Hs.
    split; [reflexivity|]. split; [|reflexivity].
    now rewrite for_each_load_root.
  - reflexivity.
Qed.

Lemma import_failure_witness :
  import_story (VList [VStr "start"]) (mkPage sample_agent forest_session) =
    (Ok (Failed AttributeError),
     mkPage (set_story_nodes [] sample_agent) forest_session) /\
  exists l1 k v l2 a1,
    broken_tree = l1 ++ (k, v) :: l2 /\
    forallb (fun e => is_dict (snd e)) l1 = true /\
    is_dict v = false /\
    import_story (VDict broken_tree) (mkPage sample_agent forest_session)
      = (Ok (Failed AttributeError), mkPage a1 forest_session) /\
    root_id a1 = root_id sample_agent /\
    story_nodes a1 =
    story_nodes (snd (for_each l1 load_entry (set_story_nodes [] sample_agent))).
Proof.
  split.
  - now apply (proj1 (import_failure (mkPage sample_agent forest_session))).
  - now apply (proj1 (proj2 (import_failure (mkPage sample_agent forest_session)))).
Defined.

(** ** The authoring buttons *)

Lemma truthy_VStr x : x <> "" -> truthy (VStr x) = true.
Proof.
  intros H. simpl. destruct (String.eqb_spec x ""); [contradiction|reflexivity].
Qed.

Lemma dict_get_app_found (d d' : dict string StoryNode) k n :
  dict_get String.eqb d k = Some n -> dict_get String.eqb (d ++ d') k = Some n.
Proof.
  induction d as [|[k' n'] d IH]; simpl; [discriminate|].
  destruct (String.eqb k' k); auto.
Qed.

Lemma dict_get_app_new (d : dict string StoryNode) k n :
  dict_get String.eqb d k = None ->
  dict_get String.eqb (d ++ [(k, n)]) k = Some n.
Proof.
  induction d as [|[k' n'] d IH]; simpl.
  - now rewrite String.eqb_refl.
  - destruct (String.eqb k' k); [discriminate|auto].
Qed.

Lemma dict_get_app_other (d : dict string StoryNode) k n k2 :
  k <> k2 ->
  dict_get String.eqb (d ++ [(k, n)]) k2 = dict_get String.eqb d k2.
Proof.
  intros Hne. induction d as [|[k' n'] d IH]; simpl.
  - apply String.eqb_neq in Hne. now rewrite Hne.
  - destruct (String.eqb k' k2); auto.
Qed.

(** [link_choice] on a node that is there and has a choices dict. *)
Lemma link_choice_run a f label to_id n d :
  dict_get String.eqb (story_nodes a) f = Some n ->
  choices n = VDict d ->
  link_choice f label to_id a =
  (Ok tt,
   set_story_nodes
     (dict_set String.eqb (story_nodes a) f
        (set_choices (VDict (dict_set key_eqb d (KStr label) to_id)) n)) a).
Proof.
  intros Hn Hd. rewrite link_choice_unfold. simpl. now rewrite Hn, Hd.
Qed.

(** The page after "Create New Scene" went through. *)
Lemma create_scene_run nid new_text ip md p f n d :
  strip new_text <> "" ->
  current_node (state p) = VStr f ->
  dict_get String.eqb (story_nodes (agent p)) f = Some n ->
  choices n = VDict d ->
  dict_get String.eqb (story_nodes (agent p)) nid = None ->
  create_scene nid new_text ip md p =
  (Ok (Success "🎭 New scene created! It will appear as a choice."),
   mkPage
     {| story_nodes :=
          dict_set String.eqb
            (story_nodes (agent p)
             ++ [(nid, mkStoryNode nid (VStr (strip new_text)) (VDict [])
                         (VDict []) (VStr ip) (VStr md))])
            f
            (set_choices
               (VDict (dict_set key_eqb d (KStr (scene_label new_text)) (VStr nid)))
               n);
        root_id := root_id (agent p) |}
     (state p)).
Proof.
  intros Ht Hc Hn Hd Hfresh.
  unfold create_scene. rewrite truthy_VStr by assumption.
  cbv beta iota delta [bind on_agent read add_node modify ret truthy].
  cbn [agent state]. rewrite Hc. cbn [link_choice_at].
  cbn [story_nodes set_story_nodes root_id].
  rewrite dict_set_absent by assumption.
  erewrite link_choice_run.
  - reflexivity.
  - cbn [story_nodes set_story_nodes]. apply dict_get_app_found. eassumption.
  - assumption.
Qed.

(** X16.  "Create New Scene" with blank text changes nothing.  With text,
    from a current node that is in the graph and has a choices dict, and a
    new identifier: the scene is filed behind the existing nodes as an
    ending with the trimmed text; the current node gets the label of the
    scene as a choice to it (behind its other choices when the label is
    new) and keeps its other fields; the other nodes, the root and the
    session stay as they are; and, when the mood of the current node can
    be hashed, pressing the new choice leads to the scene. *)
Theorem create_scene_effect nid new_text ip md p :
  (strip new_text = "" ->
     create_scene nid new_text ip md p =
     (Ok (Caution "Please write some text for the new scene."), p)) /\
  (forall f n d,
     strip new_text <> "" ->
     current_node (state p) = VStr f ->
     dict_get String.eqb (story_nodes (agent p)) f = Some n ->
     choices n = VDict d ->
     dict_get String.eqb (story_nodes (agent p)) nid = None ->
     exists a' n',
       create_scene nid new_text ip md p =
         (Ok (Success "🎭 New scene created! It will appear as a choice."),
          mkPage a' (state p)) /\
       root_id a' = root_id (agent p) /\
       keys (story_nodes a') = keys (story_nodes (agent p)) ++ [nid] /\
       get_node a' (VStr nid) =
         Ok (mkStoryNode nid (VStr (strip new_text)) (VDict []) (VDict [])
               (VStr ip) (VStr md)) /\
       get_node a' (VStr f) = Ok n' /\
       choices n' =
         VDict (dict_set key_eqb d (KStr (scene_label new_text)) (VStr nid)) /\
       (dict_get key_eqb d (KStr (scene_label new_text)) = None ->
        choices n' = VDict (d ++ [(KStr (scene_label new_text), VStr nid)])) /\
       id n' = id n /\ text n' = text n /\ metadata n' = metadata n /\
       image_prompt n' = image_prompt n /\ mood n' = mood n /\
       (forall other, other <> f -> other <> nid ->
          get_node a' (VStr other) = get_node (agent p) (VStr other)) /\
       (hashable (mood n) = true ->
        choose a' (scene_label new_text) (state p) =
          Some (Ok tt,
                {| progress := progress (state p) ++ [VStr nid];
                   current_node := VStr nid;
                   story_text := story_text (state p) ++ [VStr (strip new_text)];
                   achievements := achievements (state p);
                   choices_made := choices_made (state p) + 1 |}))).
Proof.
  split.
  - intros H. unfold create_scene. rewrite H. destruct p. reflexivity.
  - intros f n d Ht Hc Hn Hd Hfresh.
    assert (Hfn : f <> nid) by congruence.
    rewrite (@create_scene_run nid new_text ip md p f n d) by assumption.
    set (scene := mkStoryNode nid (VStr (strip new_text)) (VDict []) (VDict [])
                    (VStr ip) (VStr md)).
    set (label := scene_label new_text).
    set (d' := dict_set key_eqb d (KStr label) (VStr nid)).
    eexists. exists (set_choices (VDict d') n).
    split; [reflexivity|]. cbn [root_id story_nodes].
    assert (Hf : dict_get String.eqb (story_nodes (agent p) ++ [(nid, scene)]) f
                 = Some n) by now apply dict_get_app_found.
    assert (Hnid : get_node
                     {| story_nodes :=
                          dict_set String.eqb
                            (story_nodes (agent p) ++ [(nid, scene)]) f
                            (set_choices (VDict d') n);
                        root_id := root_id (agent p) |} (VStr nid) = Ok scene).
    { cbn [get_node story_nodes].
      rewrite (dict_get_set_other _ str_eqb_eq) by assumption.
      now rewrite dict_get_app_new. }
    assert (Hd' : dict_get key_eqb d' (KStr label) = Some (VStr nid)).
    { unfold d'. destruct (dict_get key_eqb d (KStr label)) eqn:G.
      - eapply dict_set_present_get; eassumption.
      - rewrite dict_set_absent by assumption. now apply dict_get_app_absent. }
    split; [reflexivity|].
    split.
    { rewrite (dict_set_present_keys _ _ _ _ Hf). unfold keys.
      now rewrite map_app. }
    split; [exact Hnid|].
    split.
    { cbn [get_node story_nodes]. now rewrite (dict_get_set_same _ str_eqb_eq). }
    split; [reflexivity|].
    split.
    { intros Hnew. cbn [set_choices choices]. unfold d'.
      now rewrite dict_set_absent. }
    do 5 (split; [reflexivity|]).
    split.
    { intros other Ho1 Ho2. cbn [get_node story_nodes].
      rewrite (dict_get_set_other _ str_eqb_eq) by congruence.
      rewrite dict_get_app_other by congruence. reflexivity. }
    intros Hm.
    destruct d' as [|e d''] eqn:Ed; [discriminate|].
    unfold choose.
    rewrite (@choices_list_offered _ (state p) f
               (set_choices (VDict (e :: d'')) n) e d'');
      try assumption; try reflexivity.
    2:{ cbn [story_nodes]. apply (dict_get_set_same _ str_eqb_eq). }
    rewrite Hd'.
    now rewrite (@choice_button_found _ (VStr nid) scene (state p) Hnid).
Qed.

Lemma create_scene_effect_witness :
  exists a' n',
    create_scene "scene-1" "  The cellar stairs  " "stone stairs" "mysterious"
      (mkPage dangling_agent dangling_session) =
      (Ok (Success "🎭 New scene created! It will appear as a choice."),
       mkPage a' dangling_session) /\
    root_id a' = root_id dangling_agent /\
    keys (story_nodes a') = keys (story_nodes dangling_agent) ++ ["scene-1"] /\
    get_node a' (VStr "scene-1") =
      Ok (mkStoryNode "scene-1" (VStr (strip "  The cellar stairs  ")) (VDict [])
            (VDict []) (VStr "stone stairs") (VStr "mysterious")) /\
    get_node a' (VStr "start") = Ok n' /\
    choices n' =
      VDict (dict_set key_eqb [(KStr "Open the door", VStr "cellar")]
               (KStr (scene_label "  The cellar stairs  ")) (VStr "scene-1")) /\
    (dict_get key_eqb [(KStr "Open the door", VStr "cellar")]
       (KStr (scene_label "  The cellar stairs  ")) = None ->
     choices n' =
       VDict ([(KStr "Open the door", VStr "cellar")]
              ++ [(KStr (scene_label "  The cellar stairs  "), VStr "scene-1")])) /\
    id n' = "start" /\ text n' = VStr "A locked door" /\ metadata n' = VDict [] /\
    image_prompt n' = VStr "" /\ mood n' = VStr "neutral" /\
    (forall other, other <> "start" -> other <> "scene-1" ->
       get_node a' (VStr other) = get_node dangling_agent (VStr other)) /\
    (hashable (VStr "neutral") = true ->
     choose a' (scene_label "  The cellar stairs  ") dangling_session =
       Some (Ok tt,
             {| progress := progress dangling_session ++ [VStr "scene-1"];
                current_node := VStr "scene-1";
                story_text := story_text dangling_session
                              ++ [VStr (strip "  The cellar stairs  ")];
                achievements := achievements dangling_session;
                choices_made := choices_made dangling_session + 1 |})).
Proof.
  apply (proj2 (create_scene_effect "scene-1" "  The cellar stairs  "
                  "stone stairs" "mysterious"
                  (mkPage dangling_agent dangling_session))
           "start"
           (mkStoryNode "start" (VStr "A locked door")
              (VDict [(KStr "Open the door", VStr "cellar")]) (VDict [])
              (VStr "") (VStr "neutral"))
           [(KStr "Open the door", VStr "cellar")]).
  - vm_compute. discriminate.
  - reflexivity.
  - vm_compute. reflexivity.
  - reflexivity.
  - vm_compute. reflexivity.
Defined.

Lemma dict_set_app_last (d : dict key value) (s : string) (v v' : value) :
  dict_get key_eqb d (KStr s) = None ->
  dict_set key_eqb (d ++ [(KStr s, v)]) (KStr s) v' = d ++ [(KStr s, v')].
Proof.
  induction d as [|[k x] d IH]; simpl.
  - now rewrite String.eqb_refl.
  - destruct (key_eqb k (KStr s)); [discriminate|].
    intros H. now rewrite IH.
Qed.

(** X17.  The label of a scene is made of the first thirty characters of
    its trimmed text only.  Two scenes created one after the other from
    the same node with texts that give the same label share one choice:
    it leads to the second scene, and the first scene stays in the graph
    without a choice of that node leading to it. *)
Theorem create_scene_same_label nid1 nid2 t1 t2 ip1 md1 ip2 md2 p f n d :
  strip t1 <> "" -> strip t2 <> "" ->
  scene_label t1 = scene_label t2 ->
  current_node (state p) = VStr f ->
  dict_get String.eqb (story_nodes (agent p)) f = Some n ->
  choices n = VDict d ->
  dict_get key_eqb d (KStr (scene_label t1)) = None ->
  dict_get String.eqb (story_nodes (agent p)) nid1 = None ->
  dict_get String.eqb (story_nodes (agent p)) nid2 = None ->
  nid1 <> nid2 ->
  exists p1 p2 n',
    create_scene nid1 t1 ip1 md1 p =
      (Ok (Success "🎭 New scene created! It will appear as a choice."), p1) /\
    create_scene nid2 t2 ip2 md2 p1 =
      (Ok (Success "🎭 New scene created! It will appear as a choice."), p2) /\
    get_node (agent p2) (VStr f) = Ok n' /\
    choices n' = VDict (d ++ [(KStr (scene_label t1), VStr nid2)]) /\
    get_node (agent p2) (VStr nid1) =
      Ok (mkStoryNode nid1 (VStr (strip t1)) (VDict []) (VDict [])
            (VStr ip1) (VStr md1)).
Proof.
  intros Ht1 Ht2 Hlab Hc Hn Hd Hnew Hf1 Hf2 Hne.
  assert (Hfn1 : f <> nid1) by congruence.
  assert (Hfn2 : f <> nid2) by congruence.
  rewrite (@create_scene_run nid1 t1 ip1 md1 p f n d) by assumption.
  rewrite (@dict_set_absent _ _ key_eqb d (KStr (scene_label t1)) (VStr nid1) Hnew).
  set (scene1 := mkStoryNode nid1 (VStr (strip t1)) (VDict []) (VDict [])
                   (VStr ip1) (VStr md1)).
  set (n1 := set_choices (VDict (d ++ [(KStr (scene_label t1), VStr nid1)])) n).
  set (nodes1 := dict_set String.eqb (story_nodes (agent p) ++ [(nid1, scene1)]) f n1).
  assert (Hn1 : dict_get String.eqb nodes1 f = Some n1)
    by apply (dict_get_set_same _ str_eqb_eq).
  assert (Hfresh : dict_get String.eqb nodes1 nid2 = None).
  { unfold nodes1. rewrite (dict_get_set_other _ str_eqb_eq) by assumption.
    now rewrite dict_get_app_other. }
  do 3 eexists. split; [reflexivity|].
  rewrite (@create_scene_run nid2 t2 ip2 md2 _ f n1
             (d ++ [(KStr (scene_label t1), VStr nid1)]));
    try assumption; try reflexivity.
  split; [reflexivity|]. cbn [agent get_node story_nodes].
  rewrite (dict_get_set_same _ str_eqb_eq).
  split; [reflexivity|]. split.
  - cbn [set_choices choices]. rewrite <- Hlab.
    now rewrite dict_set_app_last.
  - rewrite (dict_get_set_other _ str_eqb_eq) by assumption.
    rewrite dict_get_app_other by congruence.
    unfold nodes1. rewrite (dict_get_set_other _ str_eqb_eq) by assumption.
    now rewrite dict_get_app_new.
Qed.

Lemma create_scene_same_label_witness :
  exists p1 p2 n',
    create_scene "scene-1" "The cellar stairs wind down into the dark" "" "neutral"
      (mkPage dangling_agent dangling_session) =
      (Ok (Success "🎭 New scene created! It will appear as a choice."), p1) /\
    create_scene "scene-2" "The cellar stairs wind down into the light" "" "epic" p1 =
      (Ok (Success "🎭 New scene created! It will appear as a choice."), p2) /\
    get_node (agent p2) (VStr "start") = Ok n' /\
    choices n' =
      VDict ([(KStr "Open the door", VStr "cellar")]
             ++ [(KStr (scene_label "The cellar stairs wind down into the dark"),
                  VStr "scene-2")]) /\
    get_node (agent p2) (VStr "scene-1") =
      Ok (mkStoryNode "scene-1"
            (VStr (strip "The cellar stairs wind down into the dark"))
            (VDict []) (VDict []) (VStr "") (VStr "neutral")).
Proof.
  apply (@create_scene_same_label "scene-1" "scene-2"
           "The cellar stairs wind down into the dark"
           "The cellar stairs wind down into the light"
           "" "neutral" "" "epic"
           (mkPage dangling_agent dangling_session) "start"
           (mkStoryNode "start" (VStr "A locked door")
              (VDict [(KStr "Open the door", VStr "cellar")]) (VDict [])
              (VStr "") (VStr "neutral"))
           [(KStr "Open the door", VStr "cellar")]).
  - vm_compute. discriminate.
  - vm_compute. discriminate.
  - vm_compute. reflexivity.
  - reflexivity.
  - vm_compute. reflexivity.
  - reflexivity.
  - vm_compute. reflexivity.
  - vm_compute. reflexivity.
  - vm_compute. reflexivity.
  - discriminate.
Defined.

(** X18.  "Add Branching Choice" with blank text does nothing.  With text,
    from a current node that is in the graph and has a choices dict, and
    two new identifiers: a junction and a leaf are filed behind the
    existing nodes, in this order; the junction has the fixed text, no
    image prompt, the mood "neutral" and exactly two choices, the left one
    to the leaf and the right one to the root id of the agent ([None] when
    there is no root); the leaf is an ending with the trimmed text; the
    current node gets the choice "Face a new challenge" to the junction;
    the other nodes, the root and the session stay as they are. *)
Theorem add_branch_effect nid1 nid2 new_text ip md p :
  (strip new_text = "" ->
     add_branch nid1 nid2 new_text ip md p = (Ok Quiet, p)) /\
  (forall f n d,
     strip new_text <> "" ->
     current_node (state p) = VStr f ->
     dict_get String.eqb (story_nodes (agent p)) f = Some n ->
     choices n = VDict d ->
     dict_get String.eqb (story_nodes (agent p)) nid1 = None ->
     dict_get String.eqb (story_nodes (agent p)) nid2 = None ->
     nid1 <> nid2 ->
     exists a',
       add_branch nid1 nid2 new_text ip md p =
         (Ok (Success "🔄 Added branching storyline!"), mkPage a' (state p)) /\
       root_id a' = root_id (agent p) /\
       keys (story_nodes a') = keys (story_nodes (agent p)) ++ [nid1; nid2] /\
       get_node a' (VStr nid1) =
         Ok (mkStoryNode nid1 (VStr "You come to a crossroads...")
               (VDict [ (KStr "Take the left path", VStr nid2);
                        (KStr "Take the right path",
                         value_of_root (root_id (agent p))) ])
               (VDict []) (VStr "") (VStr "neutral")) /\
       get_node a' (VStr nid2) =
         Ok (mkStoryNode nid2 (VStr (strip new_text)) (VDict []) (VDict [])
               (VStr ip) (VStr md)) /\
       get_node a' (VStr f) =
         Ok (set_choices
               (VDict (dict_set key_eqb d (KStr "Face a new challenge") (VStr nid1)))
               n) /\
       (forall other, other <> f -> other <> nid1 -> other <> nid2 ->
          get_node a' (VStr other) = get_node (agent p) (VStr other))).
Proof.
  split.
  - intros H. unfold add_branch. rewrite H. destruct p. reflexivity.
  - intros f n d Ht Hc Hn Hd Hf1 Hf2 Hne.
    assert (Hfn1 : f <> nid1) by congruence.
    assert (Hfn2 : f <> nid2) by congruence.
    unfold add_branch. rewrite truthy_VStr by assumption.
    cbv beta iota delta [bind on_agent read add_node modify ret truthy].
    cbn [agent state]. rewrite Hc. cbn [link_choice_at].
    cbn [story_nodes set_story_nodes root_id].
    set (junction := mkStoryNode nid1 (VStr "You come to a crossroads...")
                       (VDict []) (VDict []) (VStr "") (VStr "neutral")).
    set (leaf := mkStoryNode nid2 (VStr (strip new_text)) (VDict []) (VDict [])
                   (VStr ip) (VStr md)).
    rewrite (@dict_set_absent _ _ String.eqb (story_nodes (agent p)) nid1
               junction Hf1).
    assert (Hf2' : dict_get String.eqb (story_nodes (agent p) ++ [(nid1, junction)])
                     nid2 = None) by now rewrite dict_get_app_other.
    rewrite (@dict_set_absent _ _ String.eqb _ nid2 leaf Hf2').
    set (nodesB := (story_nodes (agent p) ++ [(nid1, junction)]) ++ [(nid2, leaf)]).
    assert (HB_f : dict_get String.eqb nodesB f = Some n)
      by (unfold nodesB; now do 2 apply dict_get_app_found).
    assert (HB_1 : dict_get String.eqb nodesB nid1 = Some junction).
    { unfold nodesB. rewrite dict_get_app_other by congruence.
      now apply dict_get_app_new. }
    assert (HB_2 : dict_get String.eqb nodesB nid2 = Some leaf)
      by (unfold nodesB; now apply dict_get_app_new).
    unfold set_story_nodes. cbn [story_nodes root_id]. fold nodesB.
    rewrite (@link_choice_run (mkAgent nodesB (root_id (agent p))) f
               "Face a new challenge" (VStr nid1) n d HB_f Hd).
    unfold set_story_nodes. cbn [agent state story_nodes root_id].
    set (n' := set_choices
                 (VDict (dict_set key_eqb d (KStr "Face a new challenge") (VStr nid1)))
                 n).
    assert (HC_1 : dict_get String.eqb (dict_set String.eqb nodesB f n') nid1
                   = Some junction).
    { rewrite (dict_get_set_other _ str_eqb_eq) by assumption. exact HB_1. }
    rewrite (@link_choice_run
               (mkAgent (dict_set String.eqb nodesB f n') (root_id (agent p)))
               nid1 "Take the left path" (VStr nid2) junction [] HC_1 eq_refl).
    unfold set_story_nodes. cbn [agent state story_nodes root_id].
    set (j1 := set_choices
                 (VDict (dict_set key_eqb [] (KStr "Take the left path") (VStr nid2)))
                 junction).
    rewrite (@link_choice_run
               (mkAgent (dict_set String.eqb (dict_set String.eqb nodesB f n') nid1 j1)
                        (root_id (agent p)))
               nid1 "Take the right path" (value_of_root (root_id (agent p))) j1
               [(KStr "Take the left path", VStr nid2)]
               (dict_get_set_same _ str_eqb_eq _ _ _) eq_refl).
    unfold set_story_nodes. cbn [agent state story_nodes root_id].
    eexists. split; [reflexivity|]. cbn [root_id story_nodes get_node].
    split; [reflexivity|].
    split.
    { rewrite (@dict_set_present_keys _ _ String.eqb _ nid1 _ j1
                 (dict_get_set_same _ str_eqb_eq _ _ _)).
      rewrite (@dict_set_present_keys _ _ String.eqb _ nid1 _ junction HC_1).
      rewrite (@dict_set_present_keys _ _ String.eqb _ f _ n HB_f).
      unfold nodesB, keys. rewrite !map_app, <- app_assoc. reflexivity. }
    split.
    { now rewrite (dict_get_set_same _ str_eqb_eq). }
    split.
    { rewrite !(dict_get_set_other _ str_eqb_eq) by congruence.
      now rewrite HB_2. }
    split.
    { rewrite !(@dict_get_set_other _ _ String.eqb str_eqb_eq _ nid1) by congruence.
      now rewrite (dict_get_set_same _ str_eqb_eq). }
    intros other Ho Ho1 Ho2.
    rewrite !(dict_get_set_other _ str_eqb_eq) by congruence.
    unfold nodesB. rewrite !dict_get_app_other by congruence. reflexivity.
Qed.

Lemma add_branch_effect_witness :
  exists a',
    add_branch "junction-1" "leaf-1" " A narrow ledge " "cliff at dusk" "epic"
      (mkPage dangling_agent dangling_session) =
      (Ok (Success "🔄 Added branching storyline!"), mkPage a' dangling_session) /\
    root_id a' = root_id dangling_agent /\
    keys (story_nodes a') =
      keys (story_nodes dangling_agent) ++ ["junction-1"; "leaf-1"] /\
    get_node a' (VStr "junction-1") =
      Ok (mkStoryNode "junction-1" (VStr "You come to a crossroads...")
            (VDict [ (KStr "Take the left path", VStr "leaf-1");
                     (KStr "Take the right path",
                      value_of_root (root_id dangling_agent)) ])
            (VDict []) (VStr "") (VStr "neutral")) /\
    get_node a' (VStr "leaf-1") =
      Ok (mkStoryNode "leaf-1" (VStr (strip " A narrow ledge ")) (VDict [])
            (VDict []) (VStr "cliff at dusk") (VStr "epic")) /\
    get_node a' (VStr "start") =
      Ok (set_choices
            (VDict (dict_set key_eqb [(KStr "Open the door", VStr "cellar")]
                      (KStr "Face a new challenge") (VStr "junction-1")))
            (mkStoryNode "start" (VStr "A locked door")
               (VDict [(KStr "Open the door", VStr "cellar")]) (VDict [])
               (VStr "") (VStr "neutral"))) /\
    (forall other, other <> "start" -> other <> "junction-1" -> other <> "leaf-1" ->
       get_node a' (VStr other) = get_node dangling_agent (VStr other)).
Proof.
  apply (proj2 (add_branch_effect "junction-1" "leaf-1" " A narrow ledge "
                  "cliff at dusk" "epic" (mkPage dangling_agent dangling_session))
           "start"
           (mkStoryNode "start" (VStr "A locked door")
              (VDict [(KStr "Open the door", VStr "cellar")]) (VDict [])
              (VStr "") (VStr "neutral"))
           [(KStr "Open the door", VStr "cellar")]).
  - vm_compute. discriminate.
  - reflexivity.
  - vm_compute. reflexivity.
  - reflexivity.
  - vm_compute. reflexivity.
  - vm_compute. reflexivity.
  - discriminate.
Defined.

(** ** Achievements and the text export *)

(** The extraction never raises. *)
Lemma detect_achievement_returns t : exists r, detect_achievement t = Ok r.
Proof.
  destruct (find marker t) as [[a b]|] eqn:F.
  - destruct (@detect_achievement_found t a b F) as (x & body & _ & _ & H).
    eauto.
  - unfold detect_achievement. rewrite contains_find, F. eauto.
Qed.

Lemma existsb_eqb_In (x : string) (l : list string) :
  existsb (String.eqb x) l = true <-> In x l.
Proof.
  rewrite existsb_exists. split.
  - intros (y & Hy & E). apply String.eqb_eq in E. now subst.
  - intros H. exists x. split; [assumption|apply String.eqb_refl].
Qed.

Lemma unlock_unfold t s :
  unlock t s =
  match detect_achievement t with
  | Ok None => (Ok None, s)
  | Ok (Some name) =>
      if existsb (String.eqb name) (achievements s) then (Ok None, s)
      else (Ok (Some name), set_achievements (achievements s ++ [name]) s)
  | Raise e => (Raise e, s)
  end.
Proof.
  unfold unlock, bind, lift, read, modify, ret.
  destruct (detect_achievement t) as [[name|]|e]; try reflexivity.
  now destruct (existsb (String.eqb name) (achievements s)).
Qed.

(** X19.  Showing a node never raises for a text that is a [str].  A node
    with choices unlocks nothing.  An ending announces a name only when it
    is not among the achievements yet, and then adds exactly that name; the
    achievements never lose a name and never hold one twice; nothing else
    of the session changes; and showing the same ending again announces
    nothing and changes nothing. *)
Theorem show_ending_once c t s :
  NoDup (achievements s) ->
  exists r s1,
    show_ending c t s = (Ok r, s1) /\
    (truthy c = true -> r = None) /\
    (r = None -> s1 = s) /\
    (forall name, r = Some name ->
       ~ In name (achievements s) /\
       achievements s1 = achievements s ++ [name] /\
       detect_achievement t = Ok (Some name)) /\
    NoDup (achievements s1) /\
    incl (achievements s) (achievements s1) /\
    progress s1 = progress s /\
    current_node s1 = current_node s /\
    story_text s1 = story_text s /\
    choices_made s1 = choices_made s /\
    show_ending c t s1 = (Ok None, s1).
Proof.
  intros Hnd. unfold show_ending.
  destruct (truthy c) eqn:Tc.
  { exists None, s.
    split; [reflexivity|]. split; [reflexivity|]. split; [reflexivity|].
    split; [discriminate|]. split; [assumption|].
    split; [apply incl_refl|]. auto 10. }
  rewrite unlock_unfold.
  destruct (detect_achievement_returns t) as ([name|] & Hd); rewrite Hd.
  - destruct (existsb (String.eqb name) (achievements s)) eqn:E.
    + exists None, s. rewrite unlock_unfold, Hd, E.
      split; [reflexivity|]. split; [reflexivity|]. split; [reflexivity|].
      split; [discriminate|]. split; [assumption|].
      split; [apply incl_refl|]. auto 10.
    + assert (Hni : ~ In name (achievements s)).
      { intros Hin. apply existsb_eqb_In in Hin. congruence. }
      exists (Some name), (set_achievements (achievements s ++ [name]) s).
      rewrite unlock_unfold, Hd. simpl.
      assert (E' : existsb (String.eqb name) (achievements s ++ [name]) = true).
      { apply existsb_eqb_In, in_or_app. right. now left. }
      rewrite E'.
      split; [reflexivity|]. split; [discriminate|]. split; [discriminate|].
      split.
      { intros name' H. injection H as <-. auto. }
      split.
      { apply NoDup_app; repeat split; auto.
        - constructor; [simpl; tauto|constructor].
        - intros x Hx [<-|[]]. contradiction. }
      split; [apply incl_appl, incl_refl|]. auto 10.
  - exists None, s. rewrite unlock_unfold, Hd.
    split; [reflexivity|]. split; [reflexivity|]. split; [reflexivity|].
    split; [discriminate|]. split; [assumption|].
    split; [apply incl_refl|]. auto 10.
Qed.

Lemma show_ending_once_witness :
  exists r s1,
    show_ending (VDict []) "Achievement Unlocked: Keeper of the Light 🏆"
      forest_session = (Ok r, s1) /\
    (truthy (VDict []) = true -> r = None) /\
    (r = None -> s1 = forest_session) /\
    (forall name, r = Some name ->
       ~ In name (achievements forest_session) /\
       achievements s1 = achievements forest_session ++ [name] /\
       detect_achievement "Achievement Unlocked: Keeper of the Light 🏆"
         = Ok (Some name)) /\
    NoDup (achievements s1) /\
    incl (achievements forest_session) (achievements s1) /\
    progress s1 = progress forest_session /\
    current_node s1 = current_node forest_session /\
    story_text s1 = story_text forest_session /\
    choices_made s1 = choices_made forest_session /\
    show_ending (VDict []) "Achievement Unlocked: Keeper of the Light 🏆" s1
      = (Ok None, s1).
Proof.
  apply (@show_ending_once (VDict [])
           "Achievement Unlocked: Keeper of the Light 🏆" forest_session).
  constructor.
Defined.

Lemma concat_snoc (sep : string) (xs : list string) (x : string) :
  String.concat sep (xs ++ [x]) =
  match xs with
  | [] => x
  | _ => (String.concat sep xs ++ sep ++ x)%string
  end.
Proof.
  induction xs as [|a xs IH]; [reflexivity|].
  change (String.concat sep ((a :: xs) ++ [x]))
    with (String.concat sep (a :: (xs ++ [x]))).
  destruct xs as [|b xs]; [reflexivity|].
  change (String.concat sep (a :: (b :: xs) ++ [x]))
    with (a ++ sep ++ String.concat sep ((b :: xs) ++ [x]))%string.
  rewrite IH.
  change (String.concat sep (a :: b :: xs))
    with (a ++ sep ++ String.concat sep (b :: xs))%string.
  now rewrite !sapp_assoc.
Qed.

Lemma combine_snoc (A B : Type) (l1 : list A) (l2 : list B) (x : A) (y : B) :
  List.length l1 = List.length l2 ->
  combine (l1 ++ [x]) (l2 ++ [y]) = combine l1 l2 ++ [(x, y)].
Proof.
  revert l2. induction l1 as [|a l1 IH]; intros [|b l2] H; try discriminate.
  - reflexivity.
  - simpl. rewrite IH; [reflexivity|]. simpl in H. congruence.
Qed.

Lemma enumerate_snoc (A : Type) (l : list A) (x : A) :
  enumerate (l ++ [x]) = enumerate l ++ [(List.length l, x)].
Proof.
  unfold enumerate. rewrite length_app. simpl List.length.
  rewrite seq_app. simpl seq.
  apply combine_snoc. now rewrite length_seq.
Qed.

(** X20.  The exported story of no texts is empty.  Every further text
    adds one chapter behind the chapters there are, which stay as they
    were: a blank line (two line feeds) when it is not the first, then the
    heading "Chapter", a space, the position of the text counted from one
    in decimal and a colon, then a line feed and the text. *)
Theorem compiled_story_append texts t :
  compiled_story [] = "" /\
  compiled_story (texts ++ [t]) =
    (match texts with
     | [] => ""
     | _ => compiled_story texts ++ String "010" (String "010" "")
     end
     ++ "Chapter "
     ++ NilZero.string_of_int (Z.to_int (Z.of_nat (List.length texts + 1)))
     ++ ":" ++ String "010" "" ++ t)%string.
Proof.
  split; [reflexivity|].
  unfold compiled_story. rewrite enumerate_snoc, map_app. simpl map at 2.
  rewrite concat_snoc.
  destruct texts as [|t0 texts]; [reflexivity|].
  cbn [fst snd]. unfold chapter. cbn [str].
  change newline with (String "010" "").
  set (body := String.concat _ _).
  rewrite !sapp_assoc. reflexivity.
Qed.

Example compiled_story_two_chapters :
  compiled_story ["The Awakening"; "The Whispering Woods"] =
  ("Chapter 1:" ++ newline ++ "The Awakening" ++ newline ++ newline
   ++ "Chapter 2:" ++ newline ++ "The Whispering Woods")%string.
Proof. reflexivity. Qed.

Lemma link_choice_not_a_dict_witness :
  link_choice "start" "Climb over" (VStr "garden") scalar_choices_agent
    = (Raise TypeError, scalar_choices_agent).
Proof.
  apply (@link_choice_not_a_dict scalar_choices_agent "start" "Climb over"
           (VStr "garden")
           (mkStoryNode "start" (VStr "A wall") (VStr "none") (VDict [])
              (VStr "") (VStr "neutral")));
    reflexivity.
Defined.

Lemma load_tree_malformed_nodes_witness :
  exists l1 k v l2,
    broken_tree = l1 ++ (k, v) :: l2 /\
    forallb (fun e => is_dict (snd e)) l1 = true /\
    is_dict v = false /\
    story_nodes (snd (load_tree broken_tree sample_agent)) =
    story_nodes (snd (for_each l1 load_entry (set_story_nodes [] sample_agent))).
Proof.
  apply (@load_tree_malformed_nodes broken_tree sample_agent). reflexivity.
Defined.

(** ** Graphs without dangling links *)

Lemma dict_get_KStr_In (l : dict key value) (s : string) (v : value) :
  dict_get key_eqb l (KStr s) = Some v -> In (KStr s, v) l.
Proof.
  induction l as [|[k x] l IH]; simpl; [discriminate|].
  destruct (key_eqb k (KStr s)) eqn:E.
  - apply key_eqb_KStr in E. intros H. injection H as ->. subst. now left.
  - intros H. right. now apply IH.
Qed.

(** On a walk every entry of the history is a node of the graph. *)
Lemma walk_in_graph a s :
  walk a s ->
  Forall (fun v => exists n, get_node a v = Ok n) (progress s) /\
  last_item (progress s) = Ok (current_node s).
Proof.
  induction 1 as [s Hs | label s s' Hw IH Hc | s r s' Hw IH Hu].
  - unfold start, rbind in Hs.
    destruct (get_node a (value_of_root (root_id a))) as [n|] eqn:G;
      [|discriminate].
    injection Hs as <-. simpl. split; [|reflexivity].
    constructor; [eauto|constructor].
  - destruct IH as [Hall Hlast].
    destruct (@choose_returns a label s s' Hc) as (child & n & Hn & ->). simpl.
    split; [|apply last_item_app].
    apply Forall_app. split; [assumption|]. constructor; [eauto|constructor].
  - destruct IH as [Hall Hlast].
    destruct (1 <? List.length (progress s))%nat eqn:E.
    + apply Nat.ltb_lt in E.
      destruct (two_or_more _ E) as (p & x & y & Hp).
      rewrite (@undo_long s p x y Hp) in Hu. injection Hu as _ <-. simpl.
      split; [|apply last_item_app].
      rewrite Hp in Hall.
      replace (p ++ [x; y]) with ((p ++ [x]) ++ [y]) in Hall
        by now rewrite <- app_assoc.
      apply Forall_app in Hall. tauto.
    + rewrite undo_short in Hu by assumption. injection Hu as _ <-. auto.
Qed.

(** X21.  In a graph without dangling links whose nodes have a [str]
    text and a mood that can be hashed, a session never breaks: on every
    walk the current node is a node of the graph, the page runs through
    to its choice buttons, and pressing any of them returns and continues
    the walk. *)
Theorem closed_graph_never_fails a s :
  closed a ->
  walk a s ->
  exists n l,
    get_node a (current_node s) = Ok n /\
    choices_list a s = Ok l /\
    forall label child,
      dict_get key_eqb l (KStr label) = Some child ->
      exists s', choose a label s = Some (Ok tt, s') /\ walk a s'.
Proof.
  intros Hcl Hw.
  destruct (walk_in_graph Hw) as [Hall Hlast].
  destruct (last_item_inv _ Hlast) as (p & Hp).
  rewrite Hp in Hall. apply Forall_app in Hall. destruct Hall as [_ Hcur].
  inversion Hcur as [|? ? (n & Hn) _]; subst.
  assert (Hk : exists k, current_node s = VStr k /\
                         dict_get String.eqb (story_nodes a) k = Some n).
  { destruct (current_node s); simpl in Hn; try discriminate.
    destruct (dict_get String.eqb (story_nodes a) s0) eqn:G; [|discriminate].
    injection Hn as <-. eauto. }
  destruct Hk as (k & Hck & Hkn).
  destruct (Hcl k n Hkn) as ((t & Ht) & Hm & d & Hd & Hclosed).
  assert (Hl : exists l, choices_list a s = Ok l /\ incl l d).
  { destruct d as [|e d].
    - exists []. split; [|apply incl_refl].
      unfold choices_list. rewrite Hn. cbn [rbind].
      destruct (border_color_hashable _ Hm) as (c & ->). cbn [rbind].
      rewrite Hd, Ht. cbn [truthy achievement_of].
      destruct (detect_achievement_returns t) as (r & ->). reflexivity.
    - exists (e :: d). split; [|apply incl_refl].
      now apply (@choices_list_offered a s k n e d). }
  destruct Hl as (l & Hl & Hincl).
  exists n, l. split; [assumption|]. split; [assumption|].
  intros label child Hc.
  apply dict_get_KStr_In in Hc as Hin. apply Hincl in Hin.
  destruct (Hclosed _ _ Hin) as (m & Hm').
  eexists. split.
  - unfold choose. rewrite Hl, Hc.
    rewrite (@choice_button_found a child m s Hm'). reflexivity.
  - apply (@walk_choose a label s); [assumption|].
    unfold choose. rewrite Hl, Hc.
    now rewrite (@choice_button_found a child m s Hm').
Qed.

Lemma loop_agent_closed : closed loop_agent.
Proof.
  intros k n H.
  assert (Hs : story_nodes loop_agent =
               [ ("start",
                  mkStoryNode "start" (VStr "A clearing")
                    (VDict [(KStr "Go on", VStr "bridge")]) (VDict [])
                    (VStr "") (VStr "neutral"));
                 ("bridge",
                  mkStoryNode "bridge" (VStr "A bridge")
                    (VDict [(KStr "Go back", VStr "start")]) (VDict [])
                    (VStr "") (VStr "neutral")) ]) by reflexivity.
  rewrite Hs in H. cbn [dict_get] in H.
  destruct (String.eqb "start" k).
  - injection H as <-. split; [eexists; reflexivity|]. split; [reflexivity|].
    eexists. split; [reflexivity|].
    intros label child [E|[]]. injection E as <- <-. eexists. reflexivity.
  - destruct (String.eqb "bridge" k); [|discriminate].
    injection H as <-. split; [eexists; reflexivity|]. split; [reflexivity|].
    eexists. split; [reflexivity|].
    intros label child [E|[]]. injection E as <- <-. eexists. reflexivity.
Defined.

Lemma closed_graph_never_fails_witness :
  exists n l,
    get_node loop_agent (current_node loop_session) = Ok n /\
    choices_list loop_agent loop_session = Ok l /\
    forall label child,
      dict_get key_eqb l (KStr label) = Some child ->
      exists s', choose loop_agent label loop_session = Some (Ok tt, s') /\
                 walk loop_agent s'.
Proof.
  apply (@closed_graph_never_fails loop_agent loop_session).
  - exact loop_agent_closed.
  - apply walk_start. reflexivity.
Defined.

(** ** The label of a scene *)

Lemma take_chars_prefix n : forall s,
  exists rest, s = (take_chars n s ++ rest)%string.
Proof.
  induction n as [|n IHn]; intros s; induction s as [|c s IHs]; simpl.
  - exists "". reflexivity.
  - destruct (is_continuation c).
    + destruct IHs as (rest & Hr). exists rest. simpl. congruence.
    + exists (String c s). reflexivity.
  - exists "". reflexivity.
  - destruct (is_continuation c).
    + destruct IHs as (rest & Hr). exists rest. simpl. congruence.
    + destruct (IHn s) as (rest & Hr). exists rest. simpl. congruence.
Qed.

Lemma take_chars_short : forall s n,
  String.length s <= n -> take_chars n s = s.
Proof.
  induction s as [|c s IH]; intros n H; simpl; [reflexivity|].
  simpl in H. destruct (is_continuation c).
  - rewrite IH; [reflexivity|lia].
  - destruct n as [|n]; [lia|]. rewrite IH; [reflexivity|lia].
Qed.

(** X22.  The label of a scene is "Continue to: ", then a front part of
    the trimmed text, then three dots; the front part is the whole trimmed
    text when that has no more than thirty bytes. *)
Theorem scene_label_shape new_text :
  (exists front rest,
     scene_label new_text = ("Continue to: " ++ front ++ "...")%string /\
     strip new_text = (front ++ rest)%string) /\
  (String.length (strip new_text) <= 30 ->
   scene_label new_text = ("Continue to: " ++ strip new_text ++ "...")%string).
Proof.
  split.
  - destruct (take_chars_prefix 30 (strip new_text)) as (rest & Hr).
    exists (take_chars 30 (strip new_text)), rest. split; [reflexivity|assumption].
  - intros H. unfold scene_label. now rewrite take_chars_short.
Qed.

Lemma scene_label_shape_witness :
  scene_label "  The cellar stairs  " = "Continue to: The cellar stairs...".
Proof.
  rewrite (proj2 (scene_label_shape "  The cellar stairs  ")).
  - reflexivity.
  - vm_compute. lia.
Defined.

Example scene_label_counts_characters :
  scene_label "🌲🌲🌲🌲🌲🌲🌲🌲🌲🌲🌲🌲🌲🌲🌲🌲🌲🌲🌲🌲🌲🌲🌲🌲🌲🌲🌲🌲🌲🌲 and on"
  = "Continue to: 🌲🌲🌲🌲🌲🌲🌲🌲🌲🌲🌲🌲🌲🌲🌲🌲🌲🌲🌲🌲🌲🌲🌲🌲🌲🌲🌲🌲🌲🌲...".
Proof. vm_compute. reflexivity. Qed.
